(** * Amethyst subjects: registry, hooks and loader

    A shallow embedding of the [subjects] module of [amethyst.js] and the
    properties of its [save], [load], [unload] and hook operations.

    JavaScript values are a small inductive type; the host objects a subject
    is loaded into live in a heap and are named by locations, so that the
    receiver of a bound function is an identity and not a copy.  The code of
    the user's functions (lifecycle callbacks, API methods, hooks) is a
    parameter [code] of the development: a function value only carries a
    name, and [code] says what calling it does to the heap.

    Where the model stops:
    - a function of the program acts on the heap and returns or throws; it
      does not call back into [A.subjects], so it cannot change the registry
      or the hook lists while an operation runs;
    - numbers are integers;
    - the names of subjects and the keys of objects are strings, and the
      host of a load is an object;
    - no object redefines [hasOwnProperty] or [bind];
    - the mutual recursion of [_load] and [_loadDeps], which has no cycle
      detection, is bounded by a fuel, and a load that exhausts it is
      reported as [Diverge]. *)

From stdpp Require Import gmap strings list pretty.

#[local] Set Warnings "-register-all".


(** ** Values *)

Definition loc := nat.
Definition fid := string.

Inductive value :=
  | VUndef
  | VNull
  | VBool (b : bool)
  | VNum (n : Z)
  | VStr (s : string)
  | VFun (f : fid)                       (* a function of the program *)
  | VBound (f : fid) (this : loc)        (* [f.bind(this)], by the program or the loader *)
  | VBuiltin (k : string)                (* the member [k] of [Object.prototype] *)
  | VArr (items : list value)            (* an array literal *)
  | VObj (props : list (string * value)) (* an object literal, own properties in order *)
  | VRef (l : loc).                      (* a mutable object of the heap *)

(** An object is the list of its own enumerable properties, in insertion
    order, which is the order [for (key in o)] visits them. *)
Definition obj := list (string * value).

Abbreviation heap_t := (gmap loc obj).

Fixpoint assoc (k : string) (o : obj) : option value :=
  match o with
  | [] => None
  | (k', v) :: o' => if String.eqb k k' then Some v else assoc k o'
  end.

(** [o[k] = v]: an existing property keeps its place, a new one goes last. *)
Fixpoint set_prop (k : string) (v : value) (o : obj) : obj :=
  match o with
  | [] => [(k, v)]
  | (k', v') :: o' =>
      if String.eqb k k' then (k, v) :: o' else (k', v') :: set_prop k v o'
  end.

Definition heap_obj (h : heap_t) (l : loc) : obj := default [] (h !! l).

Definition heap_set (l : loc) (k : string) (v : value) (h : heap_t) : heap_t :=
  <[l := set_prop k v (heap_obj h l)]> h.

(** [host.k], [undefined] when the host has no such property. *)
Definition host_get (h : heap_t) (l : loc) (k : string) : value :=
  default VUndef (assoc k (heap_obj h l)).

(** The properties every object inherits from [Object.prototype]. *)
Definition object_prototype_keys : list string :=
  [ "constructor"; "toString"; "toLocaleString"; "valueOf"; "hasOwnProperty";
    "isPrototypeOf"; "propertyIsEnumerable"; "__proto__"; "__defineGetter__";
    "__defineSetter__"; "__lookupGetter__"; "__lookupSetter__" ].

Definition inherited (k : string) : bool :=
  existsb (String.eqb k) object_prototype_keys.

(** ** Utility functions of the library *)

(** [Object.prototype.toString.call(x) === '[object Object]'] *)
Definition isObject (x : value) : bool :=
  match x with
  | VObj _ | VRef _ => true
  | VBuiltin k => String.eqb k "__proto__"
  | _ => false
  end.

(** [Object.prototype.toString.call(x) === '[object Array]'] *)
Definition isArray (x : value) : bool :=
  match x with VArr _ => true | _ => false end.

(** [typeof x === 'function'] *)
Definition isFunction (x : value) : bool :=
  match x with
  | VFun _ | VBound _ _ => true
  | VBuiltin k => negb (String.eqb k "__proto__")
  | _ => false
  end.

(** JavaScript truthiness, as tested by [if (subject.subjects)] and
    [if (subject.api)]. *)
Definition truthy (x : value) : bool :=
  match x with
  | VUndef | VNull | VBool false | VNum 0 | VStr "" => false
  | _ => true
  end.

(** The name under which [code] has a member of [Object.prototype]. *)
Definition builtin_fid (k : string) : fid := "Object.prototype." +:+ k.

(** [Function.prototype.bind]: the receiver of an already bound function
    cannot be changed. *)
Definition js_bind (v : value) (this : loc) : value :=
  match v with
  | VFun f => VBound f this
  | VBuiltin k => if isFunction v then VBound (builtin_fid k) this else v
  | _ => v
  end.

(** ** Errors and results *)

Inductive error :=
  | NoName (i : nat)               (* "Subject i has no name." *)
  | OptionsNotObject (i : nat)     (* "Subject i options must be an object." *)
  | AlreadyExists (name : string)  (* "A subject named ... already exists. ..." *)
  | NotFound (name : string)       (* "Subject ... not found." *)
  | DepsNotObject                  (* "Subjects ... to be loaded into a parent must be an object!" *)
  | HooksMustBeFunctions           (* "Hooks must be functions!" *)
  | TypeError                      (* raised by the language itself *)
  | Thrown (v : value).            (* raised by a function of the program *)

Inductive result (A : Type) :=
  | Ok (a : A)
  | Throw (e : error)
  | Diverge.                        (* the recursion did not end within the fuel *)
Arguments Ok {A} a.
Arguments Throw {A} e.
Arguments Diverge {A}.

(** ** The code of the program's functions *)

Inductive completion :=
  | Return (v : value)
  | Raise (v : value).

(** What a call does: from the receiver, the arguments and the heap to a
    completion and the heap the call leaves behind. *)
Definition behaviour : Type := value → list value → heap_t → completion * heap_t.

(** ** State of the module *)

(** The log is ghost state: it records, in order, which callback the library
    invoked (with which receiver and arguments) and which stores it made. *)
Inductive event :=
  | EvBeforeSave (hook : value) (name : string) (options : value)
  | EvAfterSave (hook : value) (name : string) (options : value)
  | EvSaved (name : string) (options : value)
  | EvLoaded (name : string) (this : loc) (args : list value)
  | EvBound (name : string) (this : loc)
  | EvUnloaded (name : string) (this : loc).

Record state := State {
  _store : gmap string value;
  saveHooks_before : list value;
  saveHooks_after : list value;
  heap : heap_t;
  log : list event
}.

Definition initial (h : heap_t) : state :=
  {| _store := ∅; saveHooks_before := []; saveHooks_after := [];
     heap := h; log := [] |}.

(** ** A state and error monad *)

Definition M (A : Type) : Type := state → result A * state.

Definition ret {A} (a : A) : M A := λ s, (Ok a, s).
Definition throw {A} (e : error) : M A := λ s, (Throw e, s).
Definition diverge {A} : M A := λ s, (Diverge, s).

Definition bind {A B} (m : M A) (k : A → M B) : M B :=
  λ s, match m s with
       | (Ok a, s') => k a s'
       | (Throw e, s') => (Throw e, s')
       | (Diverge, s') => (Diverge, s')
       end.

Declare Scope m_scope.
Delimit Scope m_scope with M.
Notation "x <- c1 ;; c2" := (bind c1 (λ x, c2))
  (at level 100, c1 at next level, c2 at level 200, right associativity) : m_scope.
Notation "c1 ;;; c2" := (bind c1 (λ _, c2))
  (at level 100, c2 at level 200, right associativity) : m_scope.
Open Scope m_scope.

Definition get_state : M state := λ s, (Ok s, s).

Definition emit (e : event) : M unit :=
  λ s, (Ok tt, {| _store := _store s; saveHooks_before := saveHooks_before s;
                  saveHooks_after := saveHooks_after s; heap := heap s;
                  log := log s ++ [e] |}).

Definition set_heap (h : heap_t) : M unit :=
  λ s, (Ok tt, {| _store := _store s; saveHooks_before := saveHooks_before s;
                  saveHooks_after := saveHooks_after s; heap := h;
                  log := log s |}).

(** [for] over a list, front to back, threading a loop state. *)
Fixpoint for_each {A S} (body : A → S → M S) (xs : list A) (acc : S) : M S :=
  match xs with
  | [] => ret acc
  | x :: xs' => acc' <- body x acc ;; for_each body xs' acc'
  end.

(** ** Reading objects *)

(** [o.k] on an object whose own properties are [o]: own property first,
    then [Object.prototype]. *)
Definition prop_of (o : obj) (k : string) : value :=
  match assoc k o with
  | Some v => v
  | None => if inherited k then VBuiltin k else VUndef
  end.

(** [v.k] for the keys the library reads ([subjects], [loaded], [unloaded],
    [api]), which no built-in prototype defines. *)
Definition field (v : value) (k : string) : M value :=
  match v with
  | VUndef | VNull => throw TypeError
  | VObj o => ret (prop_of o k)
  | VRef l => s <- get_state ;; ret (prop_of (heap_obj (heap s) l) k)
  | _ => ret VUndef
  end.

Fixpoint chars (s : string) : list value :=
  match s with
  | EmptyString => []
  | String c s' => VStr (String c EmptyString) :: chars s'
  end.

Definition indexed (xs : list value) : obj :=
  imap (λ i x, (pretty i, x)) xs.

(** The pairs [(key, v[key])] that [for (key in v)] visits and
    [v.hasOwnProperty(key)] lets through. *)
Definition own_props (h : heap_t) (v : value) : obj :=
  match v with
  | VObj o => o
  | VRef l => heap_obj h l
  | VArr xs => indexed xs
  | VStr s => indexed (chars s)
  | _ => []
  end.

(** ** The subjects module *)

(** An argument of [save]: [name] is [None] when the property is missing,
    [undefined] or [null]. *)
Record subject_arg := Subject {
  name : option string;
  options : value
}.

(** An argument of [load] after the host. *)
Inductive ref :=
  | RName (n : string)                          (* ['name'] as a string *)
  | RArr (n : string) (args : option (list value))
        (* [[name]] when [args] is [None], [[name, args]] otherwise *)
  | ROther.                                     (* neither a string nor an array *)

(** The variables of [_load] that live across the iterations of its loop. *)
Record locals := Locals {
  subject : value;
  subjectName : string;
  argsArray : list value;
  loadedResults : list value
}.

Section Subjects.

Variable code : fid → behaviour.

(** Calling a value: a bound function ignores the receiver of the call. *)
Definition callee (v this : value) : option (fid * value) :=
  match v with
  | VFun f => Some (f, this)
  | VBound f l => Some (f, VRef l)
  | VBuiltin k => if isFunction v then Some (builtin_fid k, this) else None
  | _ => None
  end.

Definition call (v this : value) (args : list value) : M value :=
  match callee v this with
  | None => throw TypeError
  | Some (f, t) =>
      s <- get_state ;;
      match code f t args (heap s) with
      | (Return r, h') => set_heap h' ;;; ret r
      | (Raise e, h') => set_heap h' ;;; throw (Thrown e)
      end
  end.

(** [_store[name]] *)
Definition store_get (st : gmap string value) (n : string) : value :=
  match st !! n with
  | Some v => v
  | None => if inherited n then VBuiltin n else VUndef
  end.

(** [typeof _store[name] !== "undefined"] *)
Definition isInStore (st : gmap string value) (n : string) : bool :=
  match store_get st n with VUndef => false | _ => true end.

Definition thereAreBeforeSaveHooks (s : state) : bool :=
  negb (Nat.eqb (length (saveHooks_before s)) 0).

Definition thereAreAfterSaveHooks (s : state) : bool :=
  negb (Nat.eqb (length (saveHooks_after s)) 0).

Definition saveSubject (n : string) (opts : value) : M unit :=
  λ s, (Ok tt, {| _store := <[n := opts]> (_store s);
                  saveHooks_before := saveHooks_before s;
                  saveHooks_after := saveHooks_after s; heap := heap s;
                  log := log s ++ [EvSaved n opts] |}).

(** [for (var i = hooks.length - 1; i >= 0; i--) hooks[i](name, options)]:
    the call [hooks[i](...)] has the array as its receiver. *)
Definition run_hooks (mk : value → string → value → event) (hooks : list value)
    (n : string) (opts : value) : M unit :=
  for_each (λ hk _, emit (mk hk n opts) ;;; call hk (VArr hooks) [VStr n; opts] ;;; ret tt)
           (rev hooks) tt.

(** The body of the loop of [save] on [a = arguments[i]]; it returns the
    value of the counter [i] when the body ends.  Both hook loops declare
    [var i] again, which in JavaScript is the counter of the outer loop: a
    hook loop that runs leaves it at [-1]. *)
Definition save_arg (a : subject_arg) (i : nat) : M Z :=
  match name a with
  | None => throw (NoName i)
  | Some n =>
      if negb (isObject (options a)) then throw (OptionsNotObject i) else
      s <- get_state ;;
      if isInStore (_store s) n then throw (AlreadyExists n) else
      i1 <- (if thereAreBeforeSaveHooks s
             then run_hooks EvBeforeSave (saveHooks_before s) n (options a) ;;; ret (-1)%Z
             else ret (Z.of_nat i)) ;;
      saveSubject n (options a) ;;;
      s' <- get_state ;;
      if thereAreAfterSaveHooks s'
      then run_hooks EvAfterSave (saveHooks_after s') n (options a) ;;; ret (-1)%Z
      else ret i1
  end.

Definition save_body (args : list subject_arg) (i : nat) : M Z :=
  match args !! i with
  | None => throw TypeError
  | Some a => save_arg a i
  end.

(** The iterations of the loop of [save] from index [i] down: after the body,
    [i--] and the test [i >= 0]. *)
Fixpoint save_from (args : list subject_arg) (i : nat) : M unit :=
  i' <- save_body args i ;;
  match i with
  | S j => if (0 <=? i' - 1)%Z then save_from args j else ret tt
  | O => ret tt
  end.

Definition save (args : list subject_arg) : M unit :=
  match length args with
  | O => ret tt
  | S k => save_from args k
  end.

(** [A.subjects.before.save(func)] and [A.subjects.after.save(func)] *)
Definition before_save (func : value) : M unit :=
  if negb (isFunction func) then throw HooksMustBeFunctions else
  λ s, (Ok tt, {| _store := _store s;
                  saveHooks_before := saveHooks_before s ++ [func];
                  saveHooks_after := saveHooks_after s; heap := heap s;
                  log := log s |}).

Definition after_save (func : value) : M unit :=
  if negb (isFunction func) then throw HooksMustBeFunctions else
  λ s, (Ok tt, {| _store := _store s;
                  saveHooks_before := saveHooks_before s;
                  saveHooks_after := saveHooks_after s ++ [func]; heap := heap s;
                  log := log s |}).

(** [this[name] = v] *)
Definition assign (this : loc) (n : string) (v : value) : M unit :=
  emit (EvBound n this) ;;;
  s <- get_state ;; set_heap (heap_set this n v (heap s)).

(** The new object [boundAPI]: functions bound to the host, the rest as is. *)
Definition bind_api (this : loc) (api : obj) : obj :=
  map (λ kv, (kv.1, if isFunction kv.2 then js_bind kv.2 this else kv.2)) api.

(** "Add the subject's API to the component": the last step of an iteration
    of [_load], on the current values of [subject] and [name]. *)
Definition attach_api (this : loc) (subject : value) (name : string) : M unit :=
  api <- field subject "api" ;;
  if truthy api then
    if isFunction api then assign this name (js_bind api this)
    else
      s <- get_state ;;
      assign this name (VObj (bind_api this (own_props (heap s) api)))
  else ret tt.

(** [if (!isInStore(name)) error(name); subject = _store[name];] *)
Definition find_subject (n : string) : M value :=
  s <- get_state ;;
  if isInStore (_store s) n then ret (store_get (_store s) n)
  else throw (NotFound n).

(** The constructor arguments [_loadDeps] passes for an entry of a [subjects]
    map: [args = [key, subjects[key]]] when the value is an array,
    [args = [key, [subjects[key]]]] otherwise. *)
Definition dep_args (v : value) : list value :=
  match v with
  | VArr xs => xs
  | _ => [v]
  end.

(** [_loadDeps(context, subjects)], over the recursive [_load]. *)
Definition _loadDeps (rec : loc → list ref → M (list value))
    (context : loc) (subjects : value) : M unit :=
  if negb (isObject subjects) then throw DepsNotObject else
  s <- get_state ;;
  for_each (λ kv _, rec context [RArr kv.1 (Some (dep_args kv.2))] ;;; ret tt)
    (own_props (heap s) subjects) tt.

(** The first half of an iteration of the loop of [_load], on the argument
    [r]: the two branches on the shape of the argument.  Neither branch is
    taken for an argument that is neither an array nor a string, and the
    variables keep the values of the iteration before. *)
Definition load_subject (rec : loc → list ref → M (list value))
    (this : loc) (r : ref) (v : locals) : M locals :=
  match r with
  | RArr n args =>
      subj <- find_subject n ;;
      deps <- field subj "subjects" ;;
      (if truthy deps then _loadDeps rec this deps else ret tt) ;;;
      let aa := match args with Some a => a | None => argsArray v end in
      ld <- field subj "loaded" ;;
      res <- (if truthy ld && isFunction ld
              then emit (EvLoaded n this aa) ;;;
                   x <- call ld (VRef this) aa ;;
                   ret (loadedResults v ++ [x])
              else ret (loadedResults v)) ;;
      ret (Locals subj n aa res)
  | RName n =>
      subj <- find_subject n ;;
      deps <- field subj "subjects" ;;
      (if truthy deps then _loadDeps rec this deps else ret tt) ;;;
      ld <- field subj "loaded" ;;
      res <- (if truthy ld && isFunction ld
              then emit (EvLoaded n this []) ;;;
                   x <- call ld (VRef this) [] ;;
                   ret (loadedResults v ++ [x])
              else ret (loadedResults v)) ;;
      ret (Locals subj n (argsArray v) res)
  | ROther => ret v
  end.

(** One iteration of the loop of [_load] on the argument [r]. *)
Definition load_step (rec : loc → list ref → M (list value))
    (this : loc) (r : ref) (v : locals) : M locals :=
  v' <- load_subject rec this r v ;;
  attach_api this (subject v') (subjectName v') ;;;
  ret v'.

Definition locals0 : locals := Locals (VObj []) "" [] [].

(** [_load.apply(this, refs)]: the loop runs from the last argument to the
    first.  The fuel bounds the depth of the recursion through [_loadDeps]. *)
Fixpoint _load (fuel : nat) (this : loc) (refs : list ref) : M (list value) :=
  match fuel with
  | O => diverge
  | S fuel' =>
      v <- for_each (load_step (_load fuel') this) (rev refs) locals0 ;;
      ret (loadedResults v)
  end.

(** [A.subjects.load(context, ...refs)]: the function has no [return]. *)
Definition load (fuel : nat) (context : loc) (refs : list ref) : M value :=
  _load fuel context refs ;;; ret VUndef.

(** [A.subjects.unload(context, ...names)]: [s] is the array of the names,
    and as a property key an array reads as its elements joined by commas. *)
Definition unload (context : loc) (names : list string) : M value :=
  let s := String.concat "," names in
  st <- get_state ;;
  if negb (isInStore (_store st) s) then throw (NotFound s) else
  u <- field (store_get (_store st) s) "unloaded" ;;
  if truthy u && isFunction u
  then emit (EvUnloaded s context) ;;; call u (VRef context) [] ;;; ret VUndef
  else ret VUndef.

End Subjects.

(** ** Statements about runs *)

(** The hooks [save] called before, and after, the store of a definition,
    in the order of the calls. *)
Definition before_calls (l : list event) : list value :=
  omap (λ e, match e with EvBeforeSave hk _ _ => Some hk | _ => None end) l.

Definition after_calls (l : list event) : list value :=
  omap (λ e, match e with EvAfterSave hk _ _ => Some hk | _ => None end) l.

(** A reference as the documentation writes them: ['name'] or
    [['name', [arg, ...]]]. *)
Definition plain_ref (r : ref) : bool :=
  match r with
  | RName _ | RArr _ (Some _) => true
  | _ => false
  end.

(** The name and the constructor arguments of a plain reference. *)
Definition ref_target (r : ref) : option (string * list value) :=
  match r with
  | RName n => Some (n, [])
  | RArr n (Some args) => Some (n, args)
  | _ => None
  end.

(** [host.x.m] *)
Definition host_member (h : heap_t) (l : loc) (x m : string) : value :=
  match host_get h l x with
  | VObj o => prop_of o m
  | _ => VUndef
  end.

(** The state with one more event [e] in the log and the heap [h]. *)
Definition advance (s : state) (e : event) (h : heap_t) : state :=
  {| _store := _store s; saveHooks_before := saveHooks_before s;
     saveHooks_after := saveHooks_after s; heap := h; log := log s ++ [e] |}.

(** The value [_load] stores under [host[name]] for a subject whose [api]
    is [api]. *)
Definition bound_api (h : heap_t) (host : loc) (api : value) : value :=
  if isFunction api then js_bind api host
  else VObj (bind_api host (own_props h api)).

(** Loading the subject [n], whose definition is the object [o], into the
    host with the constructor arguments [args], step by step: the subjects
    it names first, then its [loaded] callback on the host, then its API
    under [host[n]].  The result is the handle, if there is a callback. *)
Definition load_one (code : fid → behaviour) (fuel : nat) (host : loc)
    (n : string) (o : obj) (args : list value) : M (list value) :=
  (if truthy (prop_of o "subjects")
   then _loadDeps (_load code fuel) host (prop_of o "subjects")
   else ret tt) ;;;
  res <- (if isFunction (prop_of o "loaded")
          then emit (EvLoaded n host args) ;;;
               x <- call code (prop_of o "loaded") (VRef host) args ;;
               ret [x]
          else ret []) ;;
  attach_api host (VObj o) n ;;;
  ret res.

(** The name a reference asks for. *)
Definition ref_name (r : ref) : option string :=
  match r with
  | RName n | RArr n _ => Some n
  | ROther => None
  end.

(** The names a definition makes [_load] recurse into, when the definition
    itself tells (and not an object of the heap, which callbacks can change
    while the load runs). *)
Definition static_deps (v : value) : option (list string) :=
  match v with
  | VObj o =>
      match prop_of o "subjects" with
      | VObj deps => Some (map fst deps)
      | VRef _ => None
      | _ => Some []
      end
  | VRef _ => None
  | _ => Some []
  end.

(** The documented contract on the registry: no subject depends on itself,
    directly or through others.  [rank] bounds the depth of what a name
    depends on. *)
Definition acyclic (st : gmap string value) (rank : string → nat) : Prop :=
  ∀ n v, st !! n = Some v →
    ∃ ks, static_deps v = Some ks ∧ ∀ k, k ∈ ks → rank k < rank n.

(** [m'] does what [m] does whenever [m] ends within its fuel. *)
Definition extends {A} (m m' : M A) : Prop :=
  ∀ s r s', m s = (r, s') → r ≠ Diverge → m' s = (r, s').

(** On a registry [st], [m] ends. *)
Definition converges {A} (st : gmap string value) (m : M A) : Prop :=
  ∀ s, _store s = st → (m s).1 ≠ Diverge.

(** The host [l] has an own property [k]. *)
Definition has_prop (h : heap_t) (l : loc) (k : string) : Prop :=
  is_Some (assoc k (heap_obj h l)).

(** No function of the program removes a property from an object. *)
Definition keeps_props (code : fid → behaviour) : Prop :=
  ∀ f this args h l k, has_prop h l k → has_prop (code f this args h).2 l k.

(** [delete o[k]] *)
Definition remove_prop (k : string) (o : obj) : obj :=
  filter (λ kv, kv.1 ≠ k) o.

(** A relation between the state before and the state after that a
    computation keeps, whatever its outcome. *)
Definition preserves {A} (R : relation state) (m : M A) : Prop :=
  ∀ s, R s (m s).2.

(** Registry and hook lists are the same. *)
Definition same_module (s s' : state) : Prop :=
  _store s' = _store s ∧ saveHooks_before s' = saveHooks_before s ∧
  saveHooks_after s' = saveHooks_after s.

(** Only the heap differs. *)
Definition same_but_heap (s s' : state) : Prop :=
  same_module s s' ∧ log s' = log s.

(** The log only grows. *)
Definition log_extends (s s' : state) : Prop := log s `prefix_of` log s'.

(** Hosts keep their properties. *)
Definition props_kept (s s' : state) : Prop :=
  ∀ l k, has_prop (heap s) l k → has_prop (heap s') l k.

(** Registry entries stay as they are. *)
Definition entries_kept (s s' : state) : Prop :=
  ∀ n v, _store s !! n = Some v → v ≠ VUndef → _store s' !! n = Some v.

(** ** A concrete program

    The subjects and functions of the examples: the counter of the
    documentation, a parent with a child, two plain subjects, a subject whose
    [unloaded] cleans up after itself, and a few hooks. *)
Module Scenario.

(** [function () { this._n = (this._n || 0) + 1; return this._n; }] *)
Definition counter_loaded : behaviour := λ this _ h,
  match this with
  | VRef l =>
      let n := match host_get h l "_n" with VNum n => (n + 1)%Z | _ => 1%Z end in
      (Return (VNum n), heap_set l "_n" (VNum n) h)
  | _ => (Raise VUndef, h)
  end.

(** [function () { return this._n; }] *)
Definition counter_get : behaviour := λ this _ h,
  match this with
  | VRef l => (Return (host_get h l "_n"), h)
  | _ => (Raise VUndef, h)
  end.

(** [function () { delete this.x; }] *)
Definition x_unloaded : behaviour := λ this _ h,
  match this with
  | VRef l => (Return VUndef, <[l := remove_prop "x" (heap_obj h l)]> h)
  | _ => (Raise VUndef, h)
  end.

(** [function () { this.argc = arguments.length; }] *)
Definition child_loaded : behaviour := λ this args h,
  match this with
  | VRef l => (Return VUndef, heap_set l "argc" (VNum (Z.of_nat (length args))) h)
  | _ => (Raise VUndef, h)
  end.

(** [function () { return this; }] *)
Definition whoami : behaviour := λ this _ h, (Return this, h).

(** [function () { throw 'no'; }] *)
Definition veto : behaviour := λ _ _ h, (Raise (VStr "no"), h).

(** Any other function returns the number of its arguments. *)
Definition arity : behaviour := λ _ args h, (Return (VNum (Z.of_nat (length args))), h).

Definition code (f : fid) : behaviour :=
  if String.eqb f "counter.loaded" then counter_loaded
  else if String.eqb f "counter.get" then counter_get
  else if String.eqb f "child.loaded" then child_loaded
  else if String.eqb f "whoami" then whoami
  else if String.eqb f "veto" then veto
  else arity.

(** The same program with the [unloaded] callback of [x]. *)
Definition cleanup_code (f : fid) : behaviour :=
  if String.eqb f "x.unloaded" then x_unloaded else code f.

Definition counter : subject_arg :=
  Subject (Some "counter")
    (VObj [("loaded", VFun "counter.loaded");
           ("api", VObj [("get", VFun "counter.get")])]).

Definition child : subject_arg :=
  Subject (Some "child")
    (VObj [("loaded", VFun "child.loaded");
           ("api", VObj [("hello", VFun "child.hello")])]).

Definition parent : subject_arg :=
  Subject (Some "parent")
    (VObj [("subjects", VObj [("child", VStr "child")]);
           ("loaded", VFun "parent.loaded");
           ("api", VObj [("m", VFun "parent.m"); ("version", VNum 1);
                         ("shared", VRef 7)])]).

Definition a : subject_arg :=
  Subject (Some "a") (VObj [("loaded", VFun "a.loaded"); ("api", VFun "a.api")]).

Definition b : subject_arg :=
  Subject (Some "b") (VObj [("loaded", VFun "b.loaded"); ("api", VFun "b.api")]).

(** [who] is a plain function; [log] was bound by the program to the
    object at location 9, as in [console.log.bind(console)]. *)
Definition logger : subject_arg :=
  Subject (Some "logger")
    (VObj [("api", VObj [("who", VFun "whoami"); ("log", VBound "whoami" 9);
                         ("level", VNum 3)])]).

Definition x : subject_arg :=
  Subject (Some "x")
    (VObj [("unloaded", VFun "x.unloaded"); ("api", VObj [("m", VFun "x.m")])]).

(** A heap with one empty host, [{}], at location 0. *)
Definition fresh : heap_t := {[ 0 := [] ]}.

(** The state after the calls [ms], made one after the other from the
    initial state of the module. *)
Definition after (ms : list (M unit)) : state :=
  (for_each (λ m _, m) ms tt (initial fresh)).2.

(** One before-save hook is registered. *)
Definition hooked : state := after [before_save (VFun "h1")].

(** Two hooks on each side, registered in the order of their numbers. *)
Definition two_hooks : state :=
  after [before_save (VFun "h1"); before_save (VFun "h2");
         after_save (VFun "h3"); after_save (VFun "h4")].

(** The only before-save hook throws. *)
Definition vetoed : state := after [before_save (VFun "veto")].

(** All the subjects are saved, and no hook is registered. *)
Definition saved : state :=
  after [save code [counter; child; parent; a; b; x; logger]].

(** Then [x] is loaded into the host. *)
Definition x_loaded : state := (load cleanup_code 1 0 [RName "x"] saved).2.

End Scenario.

(** ** Further statements about the module *)

(** The error the validation of [save] raises for the argument [d] at
    index [i] against the registry [st], if it raises one: the name first,
    then the options, then the registry. *)
Definition rejection (d : subject_arg) (i : nat) (st : gmap string value)
    : option error :=
  match name d with
  | None => Some (NoName i)
  | Some n =>
      if negb (isObject (options d)) then Some (OptionsNotObject i)
      else if isInStore st n then Some (AlreadyExists n)
      else None
  end.

(** The state once the definitions [args] are stored, the last one first,
    as the loop of [save] stores them. *)
Definition store_all (args : list subject_arg) (s : state) : state :=
  foldr (λ d acc, match name d with
                  | Some n => (saveSubject n (options d) acc).2
                  | None => acc
                  end) s args.

Definition names_of (args : list subject_arg) : list (option string) :=
  map name args.

Definition no_hooks (s : state) : Prop :=
  saveHooks_before s = [] ∧ saveHooks_after s = [].

Definition some_hook (s : state) : Prop :=
  saveHooks_before s ≠ [] ∨ saveHooks_after s ≠ [].

(** Every definition in the registry is an object. *)
Definition store_objects (s : state) : Prop :=
  ∀ n v, _store s !! n = Some v → isObject v = true.

(** Every registered hook is a function. *)
Definition hooks_callable (s : state) : Prop :=
  Forall (λ f, isFunction f = true) (saveHooks_before s) ∧
  Forall (λ f, isFunction f = true) (saveHooks_after s).

(** The registry is the same, or the same with [n] set to [opts]. *)
Definition stored_at_most (n : string) (opts : value) (s s' : state) : Prop :=
  _store s' = _store s ∨ _store s' = <[n := opts]> (_store s).

(** The hook lists are the same. *)
Definition same_hooks (s s' : state) : Prop :=
  saveHooks_before s' = saveHooks_before s ∧
  saveHooks_after s' = saveHooks_after s.

(** A call of the public interface of [A.subjects]. *)
Inductive op :=
  | OSave (args : list subject_arg)
  | OLoad (host : loc) (refs : list ref)
  | OUnload (host : loc) (names : list string)
  | OBeforeSave (func : value)
  | OAfterSave (func : value).

(** The state a call leaves, whatever its outcome. *)
Definition run_op (code : fid → behaviour) (fuel : nat) (o : op) (s : state)
    : state :=
  match o with
  | OSave args => (save code args s).2
  | OLoad host refs => (load code fuel host refs s).2
  | OUnload host names => (unload code host names s).2
  | OBeforeSave f => (before_save f s).2
  | OAfterSave f => (after_save f s).2
  end.

Definition run_ops (code : fid → behaviour) (fuel : nat) (os : list op)
    (s : state) : state :=
  foldl (λ acc o, run_op code fuel o acc) s os.

(** The constructor arguments an iteration of [_load] on [r] passes to
    [loaded], and the value it leaves in [argsArray]. *)
Definition args_used (r : ref) (v : locals) : list value :=
  match r with
  | RName _ => []
  | RArr _ (Some a) => a
  | RArr _ None => argsArray v
  | ROther => []
  end.

Definition args_kept (r : ref) (v : locals) : list value :=
  match r with
  | RArr _ (Some a) => a
  | _ => argsArray v
  end.

(** ** More of the concrete program *)
Module Cases.
Import Scenario.

(** A subject whose API is one function. *)
Definition greet : subject_arg :=
  Subject (Some "greet") (VObj [("api", VFun "whoami")]).

(** A subject with a [loaded] callback and nothing else. *)
Definition setup : subject_arg :=
  Subject (Some "setup") (VObj [("loaded", VFun "counter.loaded")]).

(** A subject that lists its dependencies in an array. *)
Definition listed : subject_arg :=
  Subject (Some "listed")
    (VObj [("subjects", VArr [VStr "child"]); ("loaded", VFun "listed.loaded")]).

(** A subject that names itself. *)
Definition selfish : subject_arg :=
  Subject (Some "selfish")
    (VObj [("subjects", VObj [("child", VStr "child"); ("selfish", VArr [])]);
           ("loaded", VFun "selfish.loaded")]).

(** A definition without a name, and one whose options are a string. *)
Definition nameless : subject_arg := Subject None (VObj []).
Definition optionless : subject_arg := Subject (Some "o") (VStr "options").

(** All of these, and the child, are saved; no hook is registered. *)
Definition stocked : state :=
  after [save code [greet; setup; listed; selfish; child; a; b]].

(** A before-save hook that returns and an after-save hook that throws. *)
Definition after_veto : state :=
  after [before_save (VFun "h1"); after_save (VFun "veto")].

End Cases.

(** * Properties *)

(** ** Association lists *)

Lemma assoc_set_prop_eq k v o : assoc k (set_prop k v o) = Some v.
Proof.
  induction o as [|[k' v'] o IH]; simpl.
  - by rewrite String.eqb_refl.
  - destruct (String.eqb k k') eqn:E; simpl; rewrite ?String.eqb_refl, ?E; done.
Qed.

Lemma assoc_set_prop_ne k k' v o : k ≠ k' → assoc k' (set_prop k v o) = assoc k' o.
Proof.
  intros Hne. induction o as [|[k0 v0] o IH]; simpl.
  - destruct (String.eqb k' k) eqn:E; [|done].
    apply String.eqb_eq in E. congruence.
  - destruct (String.eqb k k0) eqn:E; simpl.
    + apply String.eqb_eq in E. subst k0.
      destruct (String.eqb k' k) eqn:E'; [|done].
      apply String.eqb_eq in E'. congruence.
    + by rewrite IH.
Qed.

Lemma assoc_set_prop_is_Some k k' v o :
  is_Some (assoc k' o) → is_Some (assoc k' (set_prop k v o)).
Proof.
  intros H. destruct (decide (k = k')) as [->|Hne].
  - rewrite assoc_set_prop_eq. eauto.
  - by rewrite assoc_set_prop_ne.
Qed.

Lemma assoc_bind_api this k o :
  assoc k (bind_api this o) =
  (λ v, if isFunction v then js_bind v this else v) <$> assoc k o.
Proof.
  induction o as [|[k' v'] o IH]; simpl; [done|].
  destruct (String.eqb k k'); [done|apply IH].
Qed.

Lemma heap_obj_heap_set_eq l k v h :
  heap_obj (heap_set l k v h) l = set_prop k v (heap_obj h l).
Proof. unfold heap_set, heap_obj at 1. by rewrite lookup_insert_eq. Qed.

Lemma heap_obj_heap_set_ne l l' k v h :
  l ≠ l' → heap_obj (heap_set l k v h) l' = heap_obj h l'.
Proof. intros Hne. unfold heap_set, heap_obj. by rewrite lookup_insert_ne. Qed.

Lemma host_get_heap_set_eq l k v h : host_get (heap_set l k v h) l k = v.
Proof. unfold host_get. by rewrite heap_obj_heap_set_eq, assoc_set_prop_eq. Qed.

Lemma has_prop_heap_set l k v h l' k' :
  has_prop h l' k' → has_prop (heap_set l k v h) l' k'.
Proof.
  unfold has_prop. intros H. destruct (decide (l = l')) as [->|Hne].
  - rewrite heap_obj_heap_set_eq. by apply assoc_set_prop_is_Some.
  - by rewrite heap_obj_heap_set_ne.
Qed.

Lemma has_prop_heap_set_eq l k v h : has_prop (heap_set l k v h) l k.
Proof. unfold has_prop. rewrite heap_obj_heap_set_eq, assoc_set_prop_eq. eauto. Qed.

(** ** The monad *)

Lemma bind_Ok {A B} (m : M A) (k : A → M B) s b s' :
  bind m k s = (Ok b, s') → ∃ a s1, m s = (Ok a, s1) ∧ k a s1 = (Ok b, s').
Proof.
  unfold bind. destruct (m s) as [[a| |] s1]; intros H; try discriminate. eauto.
Qed.

Lemma bind_step {A B} (m : M A) (k : A → M B) s a s1 :
  m s = (Ok a, s1) → bind m k s = k a s1.
Proof. unfold bind. by intros ->. Qed.

Lemma bind_Throw_l {A B} (m : M A) (k : A → M B) s e s1 :
  m s = (Throw e, s1) → bind m k s = (Throw e, s1).
Proof. unfold bind. by intros ->. Qed.

Lemma bind_assoc {A B C} (m : M A) (k : A → M B) (k' : B → M C) s :
  bind (bind m k) k' s = bind m (λ a, bind (k a) k') s.
Proof. unfold bind. by destruct (m s) as [[a| |] s1]. Qed.

Lemma bind_ext {A B} (m : M A) (k k' : A → M B) s :
  (∀ a s1, k a s1 = k' a s1) → bind m k s = bind m k' s.
Proof. intros H. unfold bind. by destruct (m s) as [[a| |] s1]. Qed.

Lemma bind_ext_on {A B} (R : relation state) (m : M A) (k k' : A → M B) s :
  preserves R m →
  (∀ a s1, R s s1 → k a s1 = k' a s1) → bind m k s = bind m k' s.
Proof.
  intros Hm H. unfold bind. specialize (Hm s).
  destruct (m s) as [[a| |] s1]; [|done..]. by apply H.
Qed.

Lemma for_each_app {A S} (body : A → S → M S) xs ys acc s :
  for_each body (xs ++ ys) acc s =
  bind (for_each body xs acc) (for_each body ys) s.
Proof.
  revert acc s. induction xs as [|x xs IH]; intros acc s; simpl; [done|].
  rewrite bind_assoc. apply bind_ext. intros; apply IH.
Qed.

(** ** Relations every step of a computation keeps *)

Section Preserves.

Context (R : relation state) `{!Reflexive R, !Transitive R}.

Lemma preserves_ret {A} (a : A) : preserves R (ret a).
Proof. intros s. simpl. reflexivity. Qed.

Lemma preserves_throw {A} e : preserves R (throw (A := A) e).
Proof. intros s. simpl. reflexivity. Qed.

Lemma preserves_diverge {A} : preserves R (diverge (A := A)).
Proof. intros s. simpl. reflexivity. Qed.

Lemma preserves_get_state : preserves R get_state.
Proof. intros s. simpl. reflexivity. Qed.

Lemma preserves_bind {A B} (m : M A) (k : A → M B) :
  preserves R m → (∀ a, preserves R (k a)) → preserves R (bind m k).
Proof.
  intros Hm Hk s. unfold bind. specialize (Hm s).
  destruct (m s) as [[a| |] s1]; simpl in *; [|done..].
  etrans; [exact Hm|apply Hk].
Qed.

Lemma preserves_for_each {A S} (body : A → S → M S) xs acc :
  (∀ x acc', preserves R (body x acc')) → preserves R (for_each body xs acc).
Proof.
  intros Hb. revert acc. induction xs as [|x xs IH]; intros acc; simpl.
  - apply preserves_ret.
  - apply preserves_bind; [apply Hb|apply IH].
Qed.

Lemma preserves_field v k : preserves R (field v k).
Proof.
  destruct v; simpl;
    auto using preserves_ret, preserves_throw, preserves_bind, preserves_get_state.
Qed.

End Preserves.

Ltac preserves_step :=
  first
    [ assumption
    | solve [eapply preserves_ret; apply _]
    | solve [eapply preserves_throw; apply _]
    | solve [eapply preserves_diverge; apply _]
    | solve [eapply preserves_get_state; apply _]
    | solve [eapply preserves_field; apply _]
    | solve [auto]
    | eapply preserves_bind; [apply _| |intros ?]
    | eapply preserves_for_each; [apply _|apply _|intros ? ?]
    | match goal with
      | |- preserves _ (if ?b then _ else _) => destruct b
      | |- preserves _ (match ?x with _ => _ end) => destruct x
      end ].

Section PreservesSubjects.

Context (code : fid → behaviour).
Context (R : relation state) `{!Reflexive R, !Transitive R}.
Hypothesis R_emit : ∀ e, preserves R (emit e).
Hypothesis R_set_heap_call : ∀ f t args s,
  R s (set_heap (code f t args (heap s)).2 s).2.
Hypothesis R_set_heap_assign : ∀ l k v s,
  R s (set_heap (heap_set l k v (heap s)) s).2.

Lemma preserves_call v this args : preserves R (call code v this args).
Proof.
  unfold call. destruct (callee v this) as [[f t]|]; [|preserves_step].
  intros s. unfold bind, get_state. simpl.
  specialize (R_set_heap_call f t args s).
  destruct (code f t args (heap s)) as [[r|e] h']; simpl in *; done.
Qed.

Lemma preserves_assign this n v : preserves R (assign this n v).
Proof.
  unfold assign. preserves_step; [apply R_emit|]. intros s.
  unfold bind, get_state. apply R_set_heap_assign.
Qed.

Lemma preserves_attach_api this subj n : preserves R (attach_api this subj n).
Proof.
  unfold attach_api. pose proof preserves_assign.
  repeat preserves_step.
Qed.

Lemma preserves_find_subject n : preserves R (find_subject n).
Proof. unfold find_subject. repeat preserves_step. Qed.

Lemma preserves_loadDeps rec context subjects :
  (∀ this refs, preserves R (rec this refs)) →
  preserves R (_loadDeps rec context subjects).
Proof. intros Hrec. unfold _loadDeps. repeat preserves_step. Qed.

Lemma preserves_load_subject rec this r v :
  (∀ this refs, preserves R (rec this refs)) →
  preserves R (load_subject code rec this r v).
Proof.
  intros Hrec. unfold load_subject.
  pose proof preserves_call. pose proof (preserves_loadDeps rec).
  pose proof preserves_find_subject.
  destruct r; repeat preserves_step.
Qed.

Lemma preserves_load_step rec this r v :
  (∀ this refs, preserves R (rec this refs)) →
  preserves R (load_step code rec this r v).
Proof.
  intros Hrec. unfold load_step.
  pose proof preserves_attach_api. pose proof (preserves_load_subject rec).
  repeat preserves_step.
Qed.

Lemma preserves_load fuel this refs : preserves R (_load code fuel this refs).
Proof.
  revert this refs. induction fuel as [|fuel IH]; intros this refs; cbn [_load].
  - preserves_step.
  - preserves_step; [|preserves_step]. preserves_step.
    by apply preserves_load_step.
Qed.

Lemma preserves_unload context names : preserves R (unload code context names).
Proof.
  unfold unload. pose proof preserves_call. repeat preserves_step.
Qed.

Lemma preserves_run_hooks mk hooks n opts :
  preserves R (run_hooks code mk hooks n opts).
Proof.
  unfold run_hooks. pose proof preserves_call. repeat preserves_step.
Qed.

End PreservesSubjects.

(** ** What the loader leaves alone *)

#[local] Instance same_module_po : PreOrder same_module.
Proof.
  split.
  - by intros s.
  - intros s1 s2 s3 (?&?&?) (?&?&?). repeat split; congruence.
Qed.

#[local] Instance same_but_heap_po : PreOrder same_but_heap.
Proof.
  split.
  - by intros s.
  - intros s1 s2 s3 [H1 ?] [H2 ?]. split; [by etrans|congruence].
Qed.

#[local] Instance log_extends_po : PreOrder log_extends.
Proof. unfold log_extends. split; [by intros s|intros s1 s2 s3 ??; by etrans]. Qed.

#[local] Instance props_kept_po : PreOrder props_kept.
Proof. unfold props_kept. split; [by intros s|intros s1 s2 s3 ??; auto]. Qed.

#[local] Instance entries_kept_po : PreOrder entries_kept.
Proof. unfold entries_kept. split; [by intros s|intros s1 s2 s3 ??; auto]. Qed.

Lemma same_module_entries_kept s s' : same_module s s' → entries_kept s s'.
Proof. intros (Hs&_) n v. by rewrite Hs. Qed.

Section Frames.

Context (code : fid → behaviour).

Lemma load_same_module fuel this refs :
  preserves same_module (_load code fuel this refs).
Proof. apply preserves_load; try apply _; by intros. Qed.

Lemma unload_same_module context names :
  preserves same_module (unload code context names).
Proof. apply preserves_unload; try apply _; by intros. Qed.

Lemma run_hooks_same_module mk hooks n opts :
  preserves same_module (run_hooks code mk hooks n opts).
Proof. apply preserves_run_hooks; try apply _; by intros. Qed.

Lemma call_same_but_heap v this args :
  preserves same_but_heap (call code v this args).
Proof.
  unfold call. destruct (callee v this) as [[f t]|]; [|by intros s].
  intros s. unfold bind, get_state. simpl.
  by destruct (code f t args (heap s)) as [[r|e] h'].
Qed.

Lemma load_log_extends fuel this refs :
  preserves log_extends (_load code fuel this refs).
Proof.
  apply preserves_load; try apply _.
  - intros e s. by apply prefix_app_r.
  - intros f t args s. by unfold log_extends.
  - intros l k v s. by unfold log_extends.
Qed.

Lemma load_props_kept fuel this refs :
  keeps_props code → preserves props_kept (_load code fuel this refs).
Proof.
  intros Hk. apply preserves_load; try apply _.
  - intros e s l k. done.
  - intros f t args s l k. apply Hk.
  - intros l k v s l' k'. apply has_prop_heap_set.
Qed.

End Frames.

(** ** Saving *)

Ltac bind_inv H :=
  let a := fresh "a" in
  let s := fresh "s" in
  let H1 := fresh H in
  apply bind_Ok in H as (a & s & H1 & H).

Tactic Notation "invert_bind" hyp(H) "as" ident(a) ident(s) ident(H1) :=
  apply bind_Ok in H as (a & s & H1 & H).

Section Save.

Context (code : fid → behaviour).

Lemma isInStore_Some st n v : st !! n = Some v → v ≠ VUndef → isInStore st n = true.
Proof. unfold isInStore, store_get. intros -> ?. by destruct v. Qed.

Lemma isInStore_false st n v : isInStore st n = false → st !! n = Some v → v = VUndef.
Proof. unfold isInStore, store_get. intros H Hv. rewrite Hv in H. by destruct v. Qed.

Lemma isInStore_None st n : st !! n = None → inherited n = false → isInStore st n = false.
Proof. unfold isInStore, store_get. by intros -> ->. Qed.

Lemma hooks_loop_log mk recv n opts l u s s' :
  for_each (λ hk _, emit (mk hk n opts) ;;; call code hk recv [VStr n; opts] ;;; ret tt)
    l u s = (Ok tt, s') →
  log s' = log s ++ map (λ hk, mk hk n opts) l.
Proof.
  revert u s. induction l as [|hk l IH]; intros u s H; cbn [for_each] in H.
  - injection H as _ <-. by rewrite app_nil_r.
  - bind_inv H. bind_inv H0. injection H1 as _ <-. bind_inv H0.
    injection H0 as _ <-.
    pose proof (call_same_but_heap code hk recv [VStr n; opts]
                  (emit (mk hk n opts) s).2) as [_ Hlog].
    simpl in H1, Hlog. rewrite H1 in Hlog. simpl in Hlog.
    apply IH in H. rewrite H, Hlog. simpl. by rewrite <- app_assoc.
Qed.

Lemma run_hooks_log mk hooks n opts s s' :
  run_hooks code mk hooks n opts s = (Ok tt, s') →
  log s' = log s ++ map (λ hk, mk hk n opts) (rev hooks).
Proof. apply hooks_loop_log. Qed.

Lemma run_hooks_nil mk n opts s : run_hooks code mk [] n opts s = (Ok tt, s).
Proof. done. Qed.

Lemma save_from_unfold args i s :
  save_from code args i s =
  bind (save_body code args i)
    (λ i', match i with
           | S j => if (0 <=? i' - 1)%Z then save_from code args j else ret tt
           | O => ret tt
           end) s.
Proof. by destruct i. Qed.

Lemma save_last args d s :
  save code (args ++ [d]) s =
  bind (save_arg code d (length args))
    (λ i', match length args with
           | S j => if (0 <=? i' - 1)%Z then save_from code (args ++ [d]) j else ret tt
           | O => ret tt
           end) s.
Proof.
  unfold save. rewrite length_app. simpl. rewrite Nat.add_1_r.
  rewrite save_from_unfold. unfold save_body.
  by rewrite lookup_app_r, Nat.sub_diag by lia.
Qed.

Lemma save_arg_entries_kept d i : preserves entries_kept (save_arg code d i).
Proof.
  intros s. unfold save_arg. destruct (name d) as [n|]; [|done].
  destruct (isObject (options d)); [|done]. simpl.
  unfold bind at 1. simpl. destruct (isInStore (_store s) n) eqn:Hin; [done|].
  assert (∀ z s1, same_module s s1 →
    entries_kept s (bind (saveSubject n (options d)) (λ _,
      s' <- get_state ;;
      if thereAreAfterSaveHooks s'
      then run_hooks code EvAfterSave (saveHooks_after s') n (options d) ;;; ret (-1)%Z
      else ret z) s1).2) as Hrest.
  { intros z s1 (Hst&_).
    assert (entries_kept s (saveSubject n (options d) s1).2) as Hw.
    { intros n' v Hv Hne. simpl. rewrite Hst.
      destruct (decide (n = n')) as [<-|?]; [|by rewrite lookup_insert_ne].
      by pose proof (isInStore_false _ _ _ Hin Hv). }
    erewrite bind_step by reflexivity. erewrite bind_step by reflexivity.
    destruct (thereAreAfterSaveHooks _); [|done].
    etrans; [exact Hw|]. apply same_module_entries_kept.
    apply (preserves_bind same_module (run_hooks code _ _ _ _) _);
      [apply run_hooks_same_module|by intros _ ?]. }
  destruct (thereAreBeforeSaveHooks s).
  - rewrite bind_assoc. unfold bind at 1.
    pose proof (run_hooks_same_module code EvBeforeSave (saveHooks_before s) n
                  (options d) s) as Hh.
    destruct (run_hooks _ _ _ _ _ _) as [[[]| |] s1]; simpl in Hh;
      try by apply same_module_entries_kept.
    erewrite bind_step by reflexivity. by apply Hrest.
  - erewrite bind_step by reflexivity. by apply Hrest.
Qed.

(** Once a hook loop has run, the counter of the loop of [save] is [-1]. *)
Lemma save_arg_counter d i s i' s' :
  save_arg code d i s = (Ok i', s') →
  saveHooks_before s ≠ [] ∨ saveHooks_after s ≠ [] → i' = (-1)%Z.
Proof.
  unfold save_arg. destruct (name d) as [n|]; [|done].
  destruct (isObject (options d)); [|done]. simpl. intros H Hhooks.
  erewrite bind_step in H by reflexivity.
  destruct (isInStore (_store s) n); [done|].
  invert_bind H as i1 s1 Hbefore.
  erewrite bind_step in H by reflexivity.
  erewrite bind_step in H by reflexivity.
  assert (same_module s s1) as (_ & _ & Ha).
  { destruct (thereAreBeforeSaveHooks s).
    - invert_bind Hbefore as u s2 Hrun. injection Hbefore as _ <-.
      pose proof (run_hooks_same_module code EvBeforeSave (saveHooks_before s) n
                    (options d) s) as Hm.
      by rewrite Hrun in Hm.
    - by injection Hbefore as _ <-. }
  unfold thereAreAfterSaveHooks in H. simpl in H. rewrite Ha in H.
  destruct (saveHooks_after s) as [|hk hooks] eqn:Hafter; simpl in H.
  - injection H as <- _. destruct Hhooks as [Hb|]; [|done].
    unfold thereAreBeforeSaveHooks in Hbefore.
    destruct (saveHooks_before s); [done|]. simpl in Hbefore.
    invert_bind Hbefore as u s2 Hrun. by injection Hbefore as <- _.
  - invert_bind H as u s2 Hrun. by injection H as <- _.
Qed.

(** With a hook registered, [save] only processes its last argument. *)
Lemma save_with_hooks_only_last args d s :
  saveHooks_before s ≠ [] ∨ saveHooks_after s ≠ [] →
  save code (args ++ [d]) s = (save_arg code d (length args) ;;; ret tt) s.
Proof.
  intros Hhooks. rewrite save_last. unfold bind.
  destruct (save_arg code d (length args) s) as [[i'| |] s'] eqn:Harg; [|done..].
  rewrite (save_arg_counter _ _ _ _ _ Harg Hhooks).
  by destruct (length args).
Qed.

Lemma save_from_entries_kept args i : preserves entries_kept (save_from code args i).
Proof.
  induction i as [|i IH]; intros s; rewrite save_from_unfold.
  - eapply preserves_bind; [apply _| |intros; eapply preserves_ret; apply _].
    unfold save_body. destruct (args !! 0); [apply save_arg_entries_kept|by intros ?].
  - eapply preserves_bind; [apply _| |].
    + unfold save_body.
      destruct (args !! S i); [apply save_arg_entries_kept|by intros ?].
    + intros i'. destruct (0 <=? i' - 1)%Z; [apply IH|by intros ?].
Qed.

Lemma save_entries_kept args : preserves entries_kept (save code args).
Proof.
  unfold save. destruct (length args); [by intros ?|apply save_from_entries_kept].
Qed.

End Save.

Section SaveClaims.

Context (code : fid → behaviour).

(** C7: when the before-save hooks of a definition end in an error, the
    definition is not written: [save] ends in that same error and the
    registry is the one from before the call. *)
Theorem before_hook_error_aborts_save args d n s e s1 :
  name d = Some n → isObject (options d) = true →
  isInStore (_store s) n = false →
  run_hooks code EvBeforeSave (saveHooks_before s) n (options d) s = (Throw e, s1) →
  save code (args ++ [d]) s = (Throw e, s1) ∧ _store s1 = _store s.
Proof.
  intros Hn Hobj Hin Hrun. split.
  - rewrite save_last. apply bind_Throw_l. unfold save_arg.
    rewrite Hn, Hobj. simpl. erewrite bind_step by reflexivity. rewrite Hin.
    destruct (thereAreBeforeSaveHooks s) eqn:Hb.
    + apply bind_Throw_l, bind_Throw_l. exact Hrun.
    + unfold thereAreBeforeSaveHooks in Hb.
      destruct (saveHooks_before s); [|done]. by rewrite run_hooks_nil in Hrun.
  - pose proof (run_hooks_same_module code EvBeforeSave (saveHooks_before s) n
                  (options d) s) as (H&_).
    by rewrite Hrun in H.
Qed.

(** C6: a name the registry holds stays with its definition.  A save of a
    well-formed definition under that name ends in the duplicate-name
    error and changes nothing, and no operation of the module, whatever its
    arguments and its outcome, writes or removes the entry. *)
Theorem registry_entry_is_final s n d0 :
  _store s !! n = Some d0 → d0 ≠ VUndef →
  (∀ args d, name d = Some n → isObject (options d) = true →
     save code (args ++ [d]) s = (Throw (AlreadyExists n), s)) ∧
  (∀ args, _store (save code args s).2 !! n = Some d0) ∧
  (∀ fuel host refs, _store (load code fuel host refs s).2 !! n = Some d0) ∧
  (∀ host names, _store (unload code host names s).2 !! n = Some d0) ∧
  (∀ f, _store (before_save f s).2 !! n = Some d0) ∧
  (∀ f, _store (after_save f s).2 !! n = Some d0).
Proof.
  intros Hn Hd. repeat split.
  - intros args d Hname Hobj. rewrite save_last. apply bind_Throw_l.
    unfold save_arg. rewrite Hname, Hobj. simpl.
    erewrite bind_step by reflexivity.
    by rewrite (isInStore_Some _ _ _ Hn Hd).
  - intros args. by apply (save_entries_kept code args s).
  - intros fuel host refs. unfold load.
    assert (same_module s
              ((_load code fuel host refs ;;; ret VUndef) s).2) as (->&_); [|done].
    apply (preserves_bind same_module); [apply load_same_module|by intros _ ?].
  - intros host names.
    by destruct (unload_same_module code host names s) as (->&_).
  - intros f. unfold before_save. by destruct (isFunction f).
  - intros f. unfold after_save. by destruct (isFunction f).
Qed.


End SaveClaims.

(** ** The save operations on the concrete program *)

Module SaveExamples.
Import Scenario.

(** C3 at a failing input: with one before-save hook registered,
    [save(a, b)] returns normally but has only processed its last
    argument; [a] is not in the registry.  Without hooks both are. *)
Theorem save_with_hook_skips_arguments :
  (save code [a; b] hooked).1 = Ok tt ∧
  _store (save code [a; b] hooked).2 !! "b" = Some (options b) ∧
  _store (save code [a; b] hooked).2 !! "a" = None ∧
  log (save code [a; b] hooked).2 =
    [EvBeforeSave (VFun "h1") "b" (options b); EvSaved "b" (options b)] ∧
  _store (save code [a; b] (initial fresh)).2 !! "a" = Some (options a).
Proof. vm_compute. done. Qed.



(** [a] is registered: a second save under that name. *)
Lemma registry_entry_is_final_witness :
  save code [Subject (Some "a") (VObj [])] saved = (Throw (AlreadyExists "a"), saved) ∧
  _store (save code [Subject (Some "a") (VObj [])] saved).2 !! "a" = Some (options a).
Proof.
  split.
  - apply (proj1 (registry_entry_is_final code saved "a" (options a)
                    eq_refl ltac:(discriminate)) [] (Subject (Some "a") (VObj [])));
      reflexivity.
  - apply (registry_entry_is_final code saved "a" (options a)); [reflexivity|discriminate].
Defined.

(** The only before-save hook throws: the save of [a]. *)
Lemma before_hook_error_aborts_save_witness :
  save code [a] vetoed = (Throw (Thrown (VStr "no")), (save code [a] vetoed).2) ∧
  _store (save code [a] vetoed).2 = _store vetoed.
Proof.
  apply (before_hook_error_aborts_save code [] a "a" vetoed); reflexivity.
Defined.

End SaveExamples.

(** ** Loading *)

Lemma _load_S code fuel this refs :
  _load code (S fuel) this refs =
  (v <- for_each (load_step code (_load code fuel) this) (rev refs) locals0 ;;
   ret (loadedResults v)).
Proof. done. Qed.

#[local] Arguments call : simpl never.
#[local] Arguments _loadDeps : simpl never.
#[local] Arguments attach_api : simpl never.
#[local] Arguments _load : simpl never.

Lemma isFunction_truthy v : isFunction v = true → truthy v = true.
Proof. by destruct v. Qed.

Lemma dep_args_not_array v : isArray v = false → dep_args v = [v].
Proof. by destruct v. Qed.

Lemma dep_args_array v :
  isArray v = true → ∃ xs, v = VArr xs ∧ dep_args v = xs.
Proof. destruct v; try done. eauto. Qed.

Lemma forallb_rev {A} (f : A → bool) l : forallb f (rev l) = forallb f l.
Proof.
  induction l as [|x l IH]; simpl; [done|].
  rewrite forallb_app, IH. simpl. by rewrite andb_true_r, andb_comm.
Qed.

Lemma assoc_Some_split k v (o : obj) :
  assoc k o = Some v → ∃ o1 o2, o = o1 ++ (k, v) :: o2.
Proof.
  induction o as [|[k' v'] o IH]; simpl; [done|].
  destruct (String.eqb k k') eqn:E.
  - apply String.eqb_eq in E as ->. intros [= ->]. by exists [], o.
  - intros H. destruct (IH H) as (o1 & o2 & ->). by exists ((k', v') :: o1), o2.
Qed.

Section Load.

Context (code : fid → behaviour).

Lemma find_subject_Some n v s :
  _store s !! n = Some v → v ≠ VUndef → find_subject n s = (Ok v, s).
Proof.
  intros Hn Hv. unfold find_subject. erewrite bind_step by reflexivity.
  rewrite (isInStore_Some _ _ _ Hn Hv). unfold store_get. by rewrite Hn.
Qed.

Lemma load_single fuel host r s :
  _load code (S fuel) host [r] s =
  bind (load_subject code (_load code fuel) host r locals0)
       (λ v, attach_api host (subject v) (subjectName v) ;;;
             ret (loadedResults v)) s.
Proof.
  rewrite _load_S. cbn [rev app for_each]. unfold load_step. unfold bind.
  destruct (load_subject _ _ _ _ _ _) as [[v| |] s1]; [|done..].
  by destruct (attach_api _ _ _ _) as [[[]| |] s2].
Qed.

(** Loading one plain reference to a registered subject is [load_one]. *)
Lemma load_single_one fuel host r n args o s :
  ref_target r = Some (n, args) → _store s !! n = Some (VObj o) →
  _load code (S fuel) host [r] s = load_one code fuel host n o args s.
Proof.
  intros Hr Hn. rewrite load_single. unfold load_one.
  assert (∀ aa,
    bind (subj <- find_subject n ;;
          deps <- field subj "subjects" ;;
          (if truthy deps then _loadDeps (_load code fuel) host deps else ret tt) ;;;
          ld <- field subj "loaded" ;;
          res <- (if truthy ld && isFunction ld
                  then emit (EvLoaded n host args) ;;;
                       x <- call code ld (VRef host) args ;;
                       ret (loadedResults locals0 ++ [x])
                  else ret (loadedResults locals0)) ;;
          ret (Locals subj n aa res))
         (λ v, attach_api host (subject v) (subjectName v) ;;;
               ret (loadedResults v)) s =
    load_one code fuel host n o args s) as Hgen.
  { intros aa. unfold load_one. rewrite bind_assoc.
    erewrite bind_step by (by apply find_subject_Some).
    rewrite bind_assoc. erewrite bind_step by reflexivity.
    rewrite bind_assoc. apply bind_ext. intros [] s1.
    rewrite bind_assoc. erewrite bind_step by reflexivity.
    destruct (isFunction (prop_of o "loaded")) eqn:Hf.
    - rewrite (isFunction_truthy _ Hf). simpl. unfold bind. simpl.
      destruct (call _ _ _ _ _) as [[x| |] s2]; [|done..].
      unfold attach_api. simpl. done.
    - rewrite andb_false_r. unfold bind. simpl. unfold attach_api. done. }
  destruct r as [n'|n' [args'|]|]; simplify_eq/=; apply Hgen.
Qed.

End Load.

Section LoadClaims.

Context (code : fid → behaviour).

Lemma _load_0 this refs s : _load code 0 this refs s = (Diverge, s).
Proof. done. Qed.

Lemma attach_api_spec host o n s :
  attach_api host (VObj o) n s =
  if truthy (prop_of o "api")
  then (Ok tt, advance s (EvBound n host)
                 (heap_set host n (bound_api (heap s) host (prop_of o "api")) (heap s)))
  else (Ok tt, s).
Proof.
  unfold attach_api, bound_api.
  erewrite bind_step by reflexivity.
  destruct (truthy (prop_of o "api")); [|done].
  by destruct (isFunction (prop_of o "api")).
Qed.

Lemma load_Ok fuel host refs s r s' :
  load code fuel host refs s = (Ok r, s') →
  r = VUndef ∧ ∃ fuel' res, fuel = S fuel' ∧
    _load code (S fuel') host refs s = (Ok res, s').
Proof.
  unfold load. intros H. invert_bind H as res s1 Hl. injection H as <- <-.
  split; [done|]. destruct fuel as [|fuel']; [by rewrite _load_0 in Hl|eauto].
Qed.

(** What a load of [x] that has returned leaves under [host.x], when the API
    of [x] is the mapping [api]. *)
Lemma api_entries_after_load fuel host x o api s r s' :
  _store s !! x = Some (VObj o) → prop_of o "api" = VObj api →
  load code fuel host [RName x] s = (Ok r, s') →
  host_get (heap s') host x = VObj (bind_api host api) ∧
  (∀ m f, assoc m api = Some (VFun f) →
     host_member (heap s') host x m = VBound f host ∧
     isFunction (host_member (heap s') host x m) = true ∧
     ∀ this args st,
       call code (host_member (heap s') host x m) this args st =
       call code (VFun f) (VRef host) args st) ∧
  (∀ m v, assoc m api = Some v → isFunction v = false →
     host_member (heap s') host x m = v).
Proof.
  intros Hx Hapi H. apply load_Ok in H as (_ & fuel' & res & -> & H).
  rewrite (load_single_one code fuel' host (RName x) x [] o) in H by done.
  unfold load_one in H. invert_bind H as u s1 Hdeps.
  invert_bind H as res' s2 Hcb. invert_bind H as u' s3 Hat.
  injection H as _ <-. rewrite attach_api_spec, Hapi in Hat.
  simpl in Hat. injection Hat as _ <-.
  assert (host_get (heap (advance s2 (EvBound x host)
            (heap_set host x (bound_api (heap s2) host (VObj api)) (heap s2))))
            host x = VObj (bind_api host api)) as Hget.
  { simpl. by rewrite host_get_heap_set_eq. }
  split; [exact Hget|]. unfold host_member. rewrite Hget.
  unfold prop_of. split.
  - intros m f Hm. rewrite assoc_bind_api, Hm. simpl. done.
  - intros m v Hm Hv. rewrite assoc_bind_api, Hm. simpl. by rewrite Hv.
Qed.

(** C9, as the code has it: [unload] of a name that is neither registered
    nor a member of [Object.prototype] ends in the not-found error and
    changes nothing.  For a registered definition whose [unloaded] is a
    function of the program, [unload] calls it once, with no argument and
    with the host as receiver (with its own receiver, if the program had
    bound it already), and leaves the heap as that call left it.  For a
    registered definition without an [unloaded] function it does nothing.
    The library itself writes nothing to the host. *)
Theorem unload_only_runs_the_callback host n s :
  (_store s !! n = None → inherited n = false →
     unload code host [n] s = (Throw (NotFound n), s)) ∧
  (∀ o f, _store s !! n = Some (VObj o) → prop_of o "unloaded" = VFun f →
     unload code host [n] s =
     match code f (VRef host) [] (heap s) with
     | (Return _, h') => (Ok VUndef, advance s (EvUnloaded n host) h')
     | (Raise e, h') => (Throw (Thrown e), advance s (EvUnloaded n host) h')
     end) ∧
  (∀ o f l, _store s !! n = Some (VObj o) → prop_of o "unloaded" = VBound f l →
     unload code host [n] s =
     match code f (VRef l) [] (heap s) with
     | (Return _, h') => (Ok VUndef, advance s (EvUnloaded n host) h')
     | (Raise e, h') => (Throw (Thrown e), advance s (EvUnloaded n host) h')
     end) ∧
  (∀ o, _store s !! n = Some (VObj o) →
     isFunction (prop_of o "unloaded") = false →
     unload code host [n] s = (Ok VUndef, s)).
Proof.
  unfold unload. cbn [String.concat]. repeat split.
  - intros Hn Hi. erewrite bind_step by reflexivity.
    by rewrite (isInStore_None _ _ Hn Hi).
  - intros o f Hn Hu. erewrite bind_step by reflexivity.
    rewrite (isInStore_Some _ _ (VObj o)) by done. simpl.
    unfold store_get. rewrite Hn. erewrite bind_step by reflexivity.
    rewrite Hu. simpl. erewrite bind_step by reflexivity.
    unfold call. simpl. unfold bind. simpl.
    by destruct (code f (VRef host) [] (heap s)) as [[v|e] h'].
  - intros o f l Hn Hu. erewrite bind_step by reflexivity.
    rewrite (isInStore_Some _ _ (VObj o)) by done. simpl.
    unfold store_get. rewrite Hn. erewrite bind_step by reflexivity.
    rewrite Hu. simpl. erewrite bind_step by reflexivity.
    unfold call. simpl. unfold bind. simpl.
    by destruct (code f (VRef l) [] (heap s)) as [[v|e] h'].
  - intros o Hn Hu. erewrite bind_step by reflexivity.
    rewrite (isInStore_Some _ _ (VObj o)) by done. simpl.
    unfold store_get. rewrite Hn. erewrite bind_step by reflexivity.
    by rewrite Hu, andb_false_r.
Qed.

(** A name [Object.prototype] has a member for is never reported as not
    found: [_store[name]] reads the inherited member. *)
Lemma unload_inherited_name host n s :
  _store s !! n = None → inherited n = true →
  unload code host [n] s = (Ok VUndef, s).
Proof.
  intros Hn Hi. unfold unload. cbn [String.concat].
  erewrite bind_step by reflexivity.
  unfold isInStore, store_get. by rewrite Hn, Hi.
Qed.

Lemma loadDeps_same_module rec context subjects :
  (∀ this refs, preserves same_module (rec this refs)) →
  preserves same_module (_loadDeps rec context subjects).
Proof. intros Hrec. apply preserves_loadDeps; try apply _; by intros. Qed.

Lemma loadDeps_VObj rec host d :
  _loadDeps rec host (VObj d) =
  for_each (λ kv _, rec host [RArr kv.1 (Some (dep_args kv.2))] ;;; ret tt) d tt.
Proof. reflexivity. Qed.

Lemma loadDeps_entry rec host d1 key v d2 s :
  _loadDeps rec host (VObj (d1 ++ (key, v) :: d2)) s =
  (_loadDeps rec host (VObj d1) ;;;
   rec host [RArr key (Some (dep_args v))] ;;;
   _loadDeps rec host (VObj d2)) s.
Proof.
  rewrite !loadDeps_VObj, for_each_app. cbn [for_each].
  apply bind_ext. intros [] s1. rewrite bind_assoc.
  apply bind_ext. by intros res s2.
Qed.

(** C10, as the code has it: for an entry [key: v] of a [subjects] map,
    the subject [key] is loaded into the same host with the constructor
    arguments [dep_args v]: the elements of [v] when [v] is an array, and
    the one argument [v] when it is not, a bare string included.  The
    entries before it are loaded first and the entries after it next. *)
Theorem nested_subject_arguments fuel host d1 key v d2 o s :
  _store s !! key = Some (VObj o) →
  _loadDeps (_load code (S fuel)) host (VObj (d1 ++ (key, v) :: d2)) s =
    (_loadDeps (_load code (S fuel)) host (VObj d1) ;;;
     load_one code fuel host key o (dep_args v) ;;;
     _loadDeps (_load code (S fuel)) host (VObj d2)) s
  ∧ (∀ str, v = VStr str → dep_args v = [VStr str])
  ∧ (∀ xs, v = VArr xs → dep_args v = xs).
Proof.
  intros Hkey. split; [|by split; intros ? ->].
  rewrite loadDeps_entry.
  apply (bind_ext_on same_module).
  { apply loadDeps_same_module, load_same_module. }
  intros [] s1 (Hst & _). unfold bind.
  by rewrite (load_single_one code fuel host _ key (dep_args v) o)
    by (done || by rewrite Hst).
Qed.

(** The iteration of [_load] on a plain reference does not read the
    variables the iteration before has left, and adds its handle to the
    results. *)
Lemma load_step_plain rec host r v s :
  plain_ref r = true →
  bind (load_step code rec host r v) (λ v', ret (loadedResults v')) s =
  bind (load_step code rec host r locals0)
       (λ v', ret (loadedResults v ++ loadedResults v')) s.
Proof.
  intros Hr. unfold load_step, load_subject.
  destruct r as [n|n [args|]|]; try done.
  - unfold bind. destruct (find_subject n s) as [[subj| |] s1]; [|done..].
    destruct (field subj "subjects" s1) as [[deps| |] s2]; [|done..].
    destruct (if truthy deps then _ else _) as [[[]| |] s3]; [|done..].
    destruct (field subj "loaded" s3) as [[ld| |] s4]; [|done..].
    destruct (truthy ld && isFunction ld).
    + simpl. destruct (call _ _ _ _ _) as [[x| |] s5]; [|done..].
      simpl. by destruct (attach_api _ _ _ _) as [[[]| |] s6].
    + simpl. destruct (attach_api _ _ _ _) as [[[]| |] s6]; [|done..].
      simpl. by rewrite app_nil_r.
  - unfold bind. destruct (find_subject n s) as [[subj| |] s1]; [|done..].
    destruct (field subj "subjects" s1) as [[deps| |] s2]; [|done..].
    destruct (if truthy deps then _ else _) as [[[]| |] s3]; [|done..].
    destruct (field subj "loaded" s3) as [[ld| |] s4]; [|done..].
    destruct (truthy ld && isFunction ld).
    + simpl. destruct (call _ _ _ _ _) as [[x| |] s5]; [|done..].
      simpl. by destruct (attach_api _ _ _ _) as [[[]| |] s6].
    + simpl. destruct (attach_api _ _ _ _) as [[[]| |] s6]; [|done..].
      simpl. by rewrite app_nil_r.
Qed.

Lemma load_single_step fuel host r s :
  _load code (S fuel) host [r] s =
  bind (load_step code (_load code fuel) host r locals0)
       (λ v, ret (loadedResults v)) s.
Proof.
  rewrite _load_S. cbn [rev app for_each]. unfold bind.
  by destruct (load_step _ _ _ _ _ _) as [[v| |] s1].
Qed.

Lemma load_plain_loop fuel host l v s :
  forallb plain_ref l = true →
  bind (for_each (load_step code (_load code fuel) host) l v)
       (λ v', ret (loadedResults v')) s =
  for_each (λ r acc, res <- _load code (S fuel) host [r] ;; ret (acc ++ res))
           l (loadedResults v) s.
Proof.
  revert v s. induction l as [|r l IH]; intros v s Hl; cbn [for_each forallb] in *.
  - done.
  - apply andb_prop in Hl as [Hr Hl]. rewrite !bind_assoc.
    transitivity
      (bind (load_step code (_load code fuel) host r v)
         (λ v1, for_each (λ r acc, res <- _load code (S fuel) host [r] ;;
                                   ret (acc ++ res)) l (loadedResults v1)) s).
    { apply bind_ext. intros v1 s1. by apply IH. }
    pose proof (load_step_plain (_load code fuel) host r v s Hr) as Hp.
    unfold bind at 1 3. rewrite load_single_step. unfold bind in Hp |- *.
    destruct (load_step _ _ _ r v s) as [[v1| |] s1];
      destruct (load_step _ _ _ r locals0 s) as [[v0| |] s0];
      simplify_eq/=; try done.
    by rewrite Hp.
Qed.

(** C4, as the code has it: [load(host, ref1, ..., refn)] of plain
    references works through them from the last to the first, each one
    completely before the one in front of it, as one load per reference
    would; and the load of one reference to a registered subject resolves
    and loads the subjects it names, then calls its [loaded] callback,
    then attaches its API. *)
Theorem refs_processed_last_to_first fuel host refs s :
  forallb plain_ref refs = true →
  load code (S fuel) host refs s =
    (for_each (λ r acc, res <- _load code (S fuel) host [r] ;; ret (acc ++ res))
              (rev refs) [] ;;; ret VUndef) s
  ∧ ∀ r n args o s1,
      ref_target r = Some (n, args) → _store s1 !! n = Some (VObj o) →
      _load code (S fuel) host [r] s1 = load_one code fuel host n o args s1.
Proof.
  intros Hrefs. split.
  - unfold load. rewrite _load_S. unfold bind at 1 3.
    rewrite (load_plain_loop fuel host (rev refs) locals0 s); [done|].
    by rewrite forallb_rev.
  - intros r n args o s1 Hr Hn. by apply load_single_one.
Qed.

Lemma loadDeps_log_extends fuel context subjects :
  preserves log_extends (_loadDeps (_load code fuel) context subjects).
Proof.
  apply preserves_loadDeps; try apply _. intros. apply load_log_extends.
Qed.

Lemma loadDeps_props_kept fuel context subjects :
  keeps_props code →
  preserves props_kept (_loadDeps (_load code fuel) context subjects).
Proof.
  intros Hk. apply preserves_loadDeps; try apply _.
  intros. by apply load_props_kept.
Qed.

Lemma call_props_kept v this args :
  keeps_props code → preserves props_kept (call code v this args).
Proof.
  intros Hk. apply preserves_call; try apply _.
  intros f t a s l k. apply Hk.
Qed.

(** The stages of a successful [load_one]. *)
Lemma load_one_Ok fuel host n o args s res s' :
  load_one code fuel host n o args s = (Ok res, s') →
  ∃ s1 s2,
    (if truthy (prop_of o "subjects")
     then _loadDeps (_load code fuel) host (prop_of o "subjects")
     else ret tt) s = (Ok tt, s1) ∧
    log s2 = log s1 ++ (if isFunction (prop_of o "loaded")
                        then [EvLoaded n host args] else []) ∧
    (keeps_props code → props_kept s1 s2) ∧
    s' = if truthy (prop_of o "api")
         then advance s2 (EvBound n host)
                (heap_set host n (bound_api (heap s2) host (prop_of o "api")) (heap s2))
         else s2.
Proof.
  unfold load_one. intros H. invert_bind H as u s1 Hdeps. destruct u.
  invert_bind H as res' s2 Hcb. invert_bind H as u s3 Hat.
  injection H as _ <-. exists s1, s2. split; [done|].
  rewrite attach_api_spec in Hat. repeat split.
  - destruct (isFunction (prop_of o "loaded")).
    + invert_bind Hcb as u' s4 Hemit. injection Hemit as _ <-.
      invert_bind Hcb as x s5 Hcall. injection Hcb as _ <-.
      pose proof (call_same_but_heap code (prop_of o "loaded") (VRef host) args
                    (advance s1 (EvLoaded n host args) (heap s1))) as [_ Hlog].
      unfold advance in Hlog. rewrite Hcall in Hlog. done.
    + injection Hcb as _ <-. by rewrite app_nil_r.
  - intros Hk. destruct (isFunction (prop_of o "loaded")).
    + invert_bind Hcb as u' s4 Hemit. injection Hemit as _ <-.
      invert_bind Hcb as x s5 Hcall. injection Hcb as _ <-.
      pose proof (call_props_kept (prop_of o "loaded") (VRef host) args Hk
                    (advance s1 (EvLoaded n host args) (heap s1))) as Hp.
      unfold advance in Hp. rewrite Hcall in Hp. done.
    + by injection Hcb as _ <-.
  - by destruct (truthy (prop_of o "api")); injection Hat as <-.
Qed.

(** What a load of [parent] that has returned has done for a subject
    [child] its [subjects] map names. *)
Lemma child_before_parent_after_load fuel host parent child po co deps v s r s' :
  _store s !! parent = Some (VObj po) →
  prop_of po "subjects" = VObj deps → assoc child deps = Some v →
  _store s !! child = Some (VObj co) →
  load code fuel host [RName parent] s = (Ok r, s') →
  (isFunction (prop_of co "loaded") = true →
   isFunction (prop_of po "loaded") = true →
   ∃ pre mid,
     log s' = log s ++ pre ++ [EvLoaded child host (dep_args v)] ++ mid
              ++ [EvLoaded parent host []]
              ++ (if truthy (prop_of po "api") then [EvBound parent host] else []))
  ∧ (truthy (prop_of po "api") = true → has_prop (heap s') host parent)
  ∧ (truthy (prop_of co "api") = true → keeps_props code →
     has_prop (heap s') host child).
Proof.
  intros Hp Hdeps Hv Hc H. apply load_Ok in H as (_ & f1 & res & -> & H).
  rewrite (load_single_one code f1 host (RName parent) parent [] po) in H by done.
  apply load_one_Ok in H as (s1 & s2 & Hd & Hlog2 & Hk2 & ->).
  rewrite Hdeps in Hd. cbn [truthy] in Hd.
  destruct (assoc_Some_split _ _ _ Hv) as (d1 & d2 & ->).
  rewrite loadDeps_entry in Hd.
  invert_bind Hd as u sa Hd1. invert_bind Hd as resc sb Hchild.
  pose proof (loadDeps_same_module (_load code f1) host (VObj d1)
                (load_same_module code f1) s) as (Hsa & _).
  rewrite Hd1 in Hsa. simpl in Hsa.
  destruct f1 as [|f2]; [by rewrite _load_0 in Hchild|].
  rewrite (load_single_one code f2 host _ child (dep_args v) co) in Hchild
    by (done || by rewrite Hsa).
  apply load_one_Ok in Hchild as (sc & sd & Hcd & Hlogd & Hkd & ->).
  set (sb := if truthy (prop_of co "api") then _ else sd) in *.
  assert (log_extends s sa) as [la Hla].
  { pose proof (loadDeps_log_extends (S f2) host (VObj d1) s) as Hx.
    by rewrite Hd1 in Hx. }
  assert (log_extends sa sc) as [lc Hlc].
  { destruct (truthy (prop_of co "subjects")); [|by injection Hcd as <-].
    pose proof (loadDeps_log_extends f2 host (prop_of co "subjects") sa) as Hx.
    by rewrite Hcd in Hx. }
  assert (log_extends sb s1) as [l1 Hl1].
  { pose proof (loadDeps_log_extends (S f2) host (VObj d2) sb) as Hx.
    by rewrite Hd in Hx. }
  repeat split.
  - intros Hfc Hfp. rewrite Hfp in Hlog2. rewrite Hfc in Hlogd.
    exists (la ++ lc),
      ((if truthy (prop_of co "api") then [EvBound child host] else []) ++ l1).
    assert (log sb = log sd ++
              (if truthy (prop_of co "api") then [EvBound child host] else []))
      as Hlb.
    { unfold sb. destruct (truthy (prop_of co "api")); [done|by rewrite app_nil_r]. }
    assert (log (if truthy (prop_of po "api")
                 then advance s2 (EvBound parent host)
                        (heap_set host parent
                           (bound_api (heap s2) host (prop_of po "api")) (heap s2))
                 else s2) =
            log s2 ++ (if truthy (prop_of po "api")
                       then [EvBound parent host] else [])) as ->.
    { destruct (truthy (prop_of po "api")); [done|by rewrite app_nil_r]. }
    rewrite Hlog2, Hl1, Hlb, Hlogd, Hlc, Hla. by rewrite <- !app_assoc.
  - intros ->. apply has_prop_heap_set_eq.
  - intros Hapi Hk.
    assert (has_prop (heap sb) host child) as Hb.
    { unfold sb. rewrite Hapi. apply has_prop_heap_set_eq. }
    assert (props_kept sb s1) as Hb1.
    { pose proof (loadDeps_props_kept (S f2) host (VObj d2) Hk sb) as Hx.
      by rewrite Hd in Hx. }
    assert (has_prop (heap s2) host child) as H2 by by apply Hk2, Hb1.
    destruct (truthy (prop_of po "api")); [|done].
    by apply has_prop_heap_set.
Qed.

End LoadClaims.

(** ** Fuel

    The fuel only bounds the recursion: a load that ends within some fuel
    ends the same way with more, and on a registry without cycles a load
    ends as soon as the fuel exceeds the depth of what it is asked for. *)

Section Fuel.

Context (code : fid → behaviour).

Lemma extends_refl {A} (m : M A) : extends m m.
Proof. by intros s r s'. Qed.

Lemma extends_bind {A B} (m m' : M A) (k k' : A → M B) :
  extends m m' → (∀ a, extends (k a) (k' a)) → extends (bind m k) (bind m' k').
Proof.
  intros Hm Hk s r s' H Hr. unfold bind in *.
  destruct (m s) as [[a| |] s1] eqn:Hms.
  - rewrite (Hm _ _ _ Hms) by done. by apply Hk.
  - rewrite (Hm _ _ _ Hms) by done. done.
  - by injection H as <- <-.
Qed.

Lemma extends_for_each {A S} (body body' : A → S → M S) xs acc :
  (∀ x acc', extends (body x acc') (body' x acc')) →
  extends (for_each body xs acc) (for_each body' xs acc).
Proof.
  intros Hb. revert acc. induction xs as [|x xs IH]; intros acc; simpl.
  - apply extends_refl.
  - apply extends_bind; [apply Hb|apply IH].
Qed.

Ltac extends_step :=
  first
    [ assumption
    | solve [auto]
    | apply extends_refl
    | apply extends_bind; [|intros ?]
    | apply extends_for_each; intros ? ?
    | match goal with
      | |- extends (if ?b then _ else _) (if ?b then _ else _) => destruct b
      | |- extends (match ?x with _ => _ end) (match ?x with _ => _ end) => destruct x
      end ].

Lemma extends_loadDeps rec rec' context subjects :
  (∀ this refs, extends (rec this refs) (rec' this refs)) →
  extends (_loadDeps rec context subjects) (_loadDeps rec' context subjects).
Proof. intros Hrec. unfold _loadDeps. repeat extends_step. Qed.

Lemma extends_load_step rec rec' this r v :
  (∀ this refs, extends (rec this refs) (rec' this refs)) →
  extends (load_step code rec this r v) (load_step code rec' this r v).
Proof.
  intros Hrec. unfold load_step, load_subject.
  pose proof (extends_loadDeps rec rec') as Hd.
  destruct r; repeat extends_step.
Qed.

Lemma load_extends_S fuel this refs :
  extends (_load code fuel this refs) (_load code (S fuel) this refs).
Proof.
  revert this refs. induction fuel as [|fuel IH]; intros this refs.
  - intros s r s' H Hr. rewrite _load_0 in H. by injection H as <- <-.
  - rewrite !_load_S. apply extends_bind; [|intros; apply extends_refl].
    apply extends_for_each. intros r v. by apply extends_load_step.
Qed.

(** More fuel does not change the outcome of a load that has ended. *)
Lemma load_fuel_mono fuel fuel' this refs s r s' :
  fuel ≤ fuel' →
  _load code fuel this refs s = (r, s') → r ≠ Diverge →
  _load code fuel' this refs s = (r, s').
Proof.
  intros Hle H Hr. induction Hle as [|fuel' _ IH]; [done|].
  by apply load_extends_S.
Qed.

Lemma converges_bind {A B} st (m : M A) (k : A → M B) :
  converges st m → preserves same_module m → (∀ a, converges st (k a)) →
  converges st (bind m k).
Proof.
  intros Hm Hp Hk s Hs. unfold bind. specialize (Hm s Hs). specialize (Hp s).
  destruct (m s) as [[a| |] s1]; simpl in *; [|done..].
  apply Hk. destruct Hp as (-> & _). done.
Qed.

Lemma converges_for_each {A S} st (body : A → S → M S) xs acc :
  (∀ x acc', x ∈ xs → converges st (body x acc')) →
  (∀ x acc', preserves same_module (body x acc')) →
  converges st (for_each body xs acc).
Proof.
  intros Hb Hp. revert acc. induction xs as [|x xs IH]; intros acc; simpl.
  - by intros s _.
  - apply converges_bind; [apply Hb; left|apply Hp|].
    intros acc'. apply IH. intros y acc'' Hy. apply Hb. by right.
Qed.

Lemma converges_ret {A} st (a : A) : converges st (ret a).
Proof. by intros s _. Qed.

Lemma converges_throw {A} st e : converges st (throw (A := A) e).
Proof. by intros s _. Qed.

Lemma converges_field st v k : converges st (field v k).
Proof. intros s _. by destruct v. Qed.

Lemma converges_call st v this args : converges st (call code v this args).
Proof.
  intros s _. unfold call. destruct (callee v this) as [[f t]|]; [|done].
  unfold bind, get_state. simpl. by destruct (code f t args (heap s)) as [[?|?] ?].
Qed.

Lemma converges_attach_api st this subj n : converges st (attach_api this subj n).
Proof.
  intros s _. unfold attach_api, bind. destruct (field subj "api" s) as [[api| |] s1] eqn:Hf.
  - destruct (truthy api); [|done]. by destruct (isFunction api).
  - done.
  - by destruct subj.
Qed.

Lemma attach_api_same_module this subj n : preserves same_module (attach_api this subj n).
Proof. apply preserves_attach_api; try apply _; by intros. Qed.

Lemma call_same_module v this args : preserves same_module (call code v this args).
Proof. intros s. by destruct (call_same_but_heap code v this args s). Qed.

(** The subjects named by the definition of a registered name load within
    the fuel of [rec], when [rec] ends on every name of rank below [bound]
    and the name itself has rank at most [bound]. *)
Lemma converges_deps st rank rec this bound n s :
  acyclic st rank →
  (∀ this refs, preserves same_module (rec this refs)) →
  (∀ this k args, rank k < bound → converges st (rec this [RArr k (Some args)])) →
  rank n ≤ bound → _store s = st →
  converges st
    (deps <- field (store_get st n) "subjects" ;;
     if truthy deps then _loadDeps rec this deps else ret tt).
Proof.
  intros Hac Hp Hrec Hn Hs s0 Hs0. unfold store_get.
  destruct (st !! n) as [v|] eqn:Hv.
  - destruct (Hac n v Hv) as (ks & Hks & Hrank).
    destruct v as [| | | | | | | |xs|o|l]; try done.
    simpl in Hks. erewrite bind_step by reflexivity.
    destruct (truthy (prop_of o "subjects")); [|done].
    destruct (prop_of o "subjects") as [| | | | | | |k|xs|deps|l] eqn:Ho; try done.
    { unfold _loadDeps. by destruct (isObject (VBuiltin k)). }
    injection Hks as <-. rewrite loadDeps_VObj.
    refine (converges_for_each st _ deps tt _ _ s0 Hs0).
    + intros [k v] [] Hin. apply converges_bind;
        [|apply Hp|intros; apply converges_ret].
      apply Hrec. eapply Nat.lt_le_trans; [|exact Hn].
      apply Hrank. apply list_elem_of_fmap. by exists (k, v).
    + intros [k v] []. apply (preserves_bind same_module); [apply Hp|by intros ??].
  - by destruct (inherited n).
Qed.

Lemma converges_emit st e : converges st (emit e).
Proof. by intros s _. Qed.

Lemma emit_same_module e : preserves same_module (emit e).
Proof. by intros s. Qed.

Lemma load_subject_same_module rec this r v :
  (∀ this refs, preserves same_module (rec this refs)) →
  preserves same_module (load_subject code rec this r v).
Proof. intros Hp. apply preserves_load_subject; try apply _; by intros. Qed.

Ltac converges_step :=
  first
    [ apply converges_ret | apply converges_throw | apply converges_field
    | apply converges_call | apply converges_emit | apply converges_attach_api
    | apply converges_bind; [| |intros ?]
    | apply emit_same_module | apply call_same_module
    | apply attach_api_same_module
    | solve [eapply preserves_field; apply _]
    | solve [eapply preserves_ret; apply _]
    | match goal with
      | |- converges _ (if ?b then _ else _) => destruct b
      | |- preserves _ (if ?b then _ else _) => destruct b
      | |- preserves _ (bind _ _) => eapply preserves_bind; [apply _| |intros ?]
      end ].

Lemma converges_load_subject st rank rec this bound r v :
  acyclic st rank →
  (∀ this refs, preserves same_module (rec this refs)) →
  (∀ this k args, rank k < bound → converges st (rec this [RArr k (Some args)])) →
  (∀ n, ref_name r = Some n → rank n ≤ bound) →
  converges st (load_subject code rec this r v).
Proof.
  intros Hac Hp Hrec Hr.
  assert (∀ n (K : value → M locals), rank n ≤ bound →
            (∀ subj, converges st (K subj)) →
            converges st
              (subj <- find_subject n ;;
               deps <- field subj "subjects" ;;
               (if truthy deps then _loadDeps rec this deps else ret tt) ;;;
               K subj)) as Hgen.
  { intros n K Hn HK s0 Hs0. unfold find_subject. rewrite bind_assoc.
    erewrite bind_step by reflexivity. rewrite Hs0.
    destruct (isInStore st n); [|done]. erewrite bind_step by reflexivity.
    rewrite <- (bind_assoc (field (store_get st n) "subjects")
                  (λ deps, if truthy deps then _loadDeps rec this deps else ret tt)
                  (λ _, K (store_get st n))).
    refine (converges_bind st _ _ _ _ _ s0 Hs0).
    - by apply (converges_deps st rank rec this bound n s0).
    - eapply preserves_bind; [apply _|eapply preserves_field; apply _|].
      intros deps. destruct (truthy deps); [|eapply preserves_ret; apply _].
      by apply loadDeps_same_module.
    - intros _. apply HK. }
  destruct r as [n|n args|]; cbn [load_subject].
  - apply Hgen; [by apply Hr|]. intros subj. repeat converges_step.
  - apply Hgen; [by apply Hr|]. intros subj. repeat converges_step.
  - apply converges_ret.
Qed.

Lemma load_step_same_module fuel this r v :
  preserves same_module (load_step code (_load code fuel) this r v).
Proof.
  apply preserves_load_step; try apply _; try by intros.
  intros. apply load_same_module.
Qed.

Lemma converges_load_S st rank fuel this refs :
  acyclic st rank →
  (∀ this k args, rank k < fuel →
     converges st (_load code fuel this [RArr k (Some args)])) →
  (∀ r n, r ∈ refs → ref_name r = Some n → rank n ≤ fuel) →
  converges st (_load code (S fuel) this refs).
Proof.
  intros Hac Hrec Hrefs. rewrite _load_S.
  apply converges_bind; [| |intros; apply converges_ret].
  - apply converges_for_each; [|intros; apply load_step_same_module].
    intros r v Hr. unfold load_step.
    apply converges_bind; [| |intros; repeat converges_step].
    + apply (converges_load_subject st rank (_load code fuel) this fuel r v Hac).
      * intros. apply load_same_module.
      * exact Hrec.
      * intros n Hn. eapply Hrefs; [|done].
        by apply list_elem_of_In, in_rev, list_elem_of_In.
    + apply load_subject_same_module. intros. apply load_same_module.
  - apply preserves_for_each; try apply _. intros. apply load_step_same_module.
Qed.

(** On a registry without cycles a load ends, with a result or with an
    error, once the fuel exceeds the rank of every name it is asked for. *)
Theorem load_terminates rank fuel this refs s :
  acyclic (_store s) rank →
  (∀ r n, r ∈ refs → ref_name r = Some n → rank n ≤ fuel) →
  (_load code (S fuel) this refs s).1 ≠ Diverge.
Proof.
  intros Hac Hrefs.
  cut (converges (_store s) (_load code (S fuel) this refs)); [by intros H; apply H|].
  revert this refs Hrefs. induction fuel as [|fuel IH]; intros this refs Hrefs.
  - apply (converges_load_S _ rank); [done| |done]. intros; lia.
  - apply (converges_load_S _ rank); [done| |done].
    intros this' k args Hk. apply IH.
    intros r' n' Hr' Hn'. apply list_elem_of_singleton in Hr' as ->.
    simpl in Hn'. injection Hn' as <-. lia.
Qed.

Lemma load_ends rank fuel host refs s :
  acyclic (_store s) rank →
  (∀ r n, r ∈ refs → ref_name r = Some n → rank n ≤ fuel) →
  (load code (S fuel) host refs s).1 ≠ Diverge.
Proof.
  intros Hac Hrefs. pose proof (load_terminates rank fuel host refs s Hac Hrefs) as H.
  unfold load, bind. by destruct (_load code (S fuel) host refs s) as [[res| |] s1].
Qed.

Lemma load_one_name_ends rank fuel host n s :
  acyclic (_store s) rank → rank n ≤ fuel →
  (load code (S fuel) host [RName n] s).1 ≠ Diverge.
Proof.
  intros Hac Hn. apply (load_ends rank); [done|].
  intros r n' Hr Hn'. apply list_elem_of_singleton in Hr as ->.
  simpl in Hn'. by injection Hn' as <-.
Qed.



End Fuel.

(** ** The loader on the concrete program *)

Module LoadExamples.
Import Scenario.

Lemma scenario_keeps_props : keeps_props code.
Proof.
  intros f this args h l k H. unfold code.
  repeat case_match; try done; subst;
    unfold counter_loaded, child_loaded; destruct this; try done;
    by apply has_prop_heap_set.
Qed.

(** C1 at a failing input: the counter of the documentation is saved and
    loaded into a fresh host.  The inner [_load] returns the handles,
    [[1]], and [load] returns [undefined]. *)
Theorem load_drops_the_handles :
  (_load code 1 0 [RName "counter"] saved).1 = Ok [VNum 1] ∧
  (load code 1 0 [RName "counter"] saved).1 = Ok VUndef ∧
  host_get (heap (load code 1 0 [RName "counter"] saved).2) 0 "_n" = VNum 1.
Proof. vm_compute. done. Qed.

Lemma saved_store :
  _store saved =
  list_to_map [("counter", options counter); ("child", options child);
               ("parent", options parent); ("a", options a); ("b", options b);
               ("x", options x); ("logger", options logger)].
Proof. vm_compute. reflexivity. Qed.

Lemma scenario_acyclic :
  acyclic (_store saved) (λ n, if String.eqb n "parent" then 1 else 0).
Proof.
  intros n v Hn. rewrite saved_store in Hn.
  apply elem_of_list_to_map_2 in Hn.
  repeat (apply elem_of_cons in Hn as [Hn|Hn]; [injection Hn as -> ->|]);
    [..|by inversion Hn];
    (eexists; split; [reflexivity|]); intros k Hk;
    repeat (apply elem_of_cons in Hk as [->|Hk]); try by inversion Hk.
  vm_compute. lia.
Qed.


(** C4 as stated fails: of [load(host, 'a', 'b')], [b] is processed, all
    of it, before [a]. *)
Lemma refs_not_processed_in_caller_order :
  (load code 1 0 [RName "a"; RName "b"] saved).1 = Ok VUndef ∧
  log (load code 1 0 [RName "a"; RName "b"] saved).2 =
    log saved ++ [EvLoaded "b" 0 []; EvBound "b" 0; EvLoaded "a" 0 []; EvBound "a" 0] ∧
  log (load code 1 0 [RName "a"; RName "b"] saved).2 ≠
    log saved ++ [EvLoaded "a" 0 []; EvBound "a" 0; EvLoaded "b" 0 []; EvBound "b" 0].
Proof. vm_compute. repeat split; discriminate. Qed.

(** Two references, one with constructor arguments. *)
Lemma refs_processed_last_to_first_witness :
  load code 1 0 [RName "a"; RArr "b" (Some [VNum 1])] saved =
  (for_each (λ r acc, res <- _load code 1 0 [r] ;; ret (acc ++ res))
            [RArr "b" (Some [VNum 1]); RName "a"] [] ;;; ret VUndef) saved.
Proof.
  apply (refs_processed_last_to_first code 0 0
           [RName "a"; RArr "b" (Some [VNum 1])] saved).
  reflexivity.
Defined.



(** C9 as stated fails: [x] is loaded into the host, so [host.x] is its
    bound API; the [unloaded] callback of [x] deletes [this.x]; after
    [unload(host, 'x')], which returns normally, [host.x] is gone. *)
Lemma unload_can_change_the_host :
  (unload cleanup_code 0 ["x"] x_loaded).1 = Ok VUndef ∧
  host_get (heap x_loaded) 0 "x" = VObj [("m", VBound "x.m" 0)] ∧
  host_get (heap (unload cleanup_code 0 ["x"] x_loaded).2) 0 "x" = VUndef ∧
  host_get (heap (unload cleanup_code 0 ["x"] x_loaded).2) 0 "x"
    ≠ host_get (heap x_loaded) 0 "x".
Proof. vm_compute. repeat split; discriminate. Qed.

(** The three cases of [unload]: a name nobody registered, a subject with
    an [unloaded] callback, and one without. *)
Lemma unload_only_runs_the_callback_witness :
  unload code 0 ["nobody"] saved = (Throw (NotFound "nobody"), saved) ∧
  unload cleanup_code 0 ["x"] x_loaded =
    (Ok VUndef, advance x_loaded (EvUnloaded "x" 0)
                  (x_unloaded (VRef 0) [] (heap x_loaded)).2) ∧
  unload code 0 ["a"] saved = (Ok VUndef, saved).
Proof.
  split; [|split].
  - apply (unload_only_runs_the_callback code 0 "nobody" saved); reflexivity.
  - apply (proj1 (proj2 (unload_only_runs_the_callback cleanup_code 0 "x" x_loaded))
             [("unloaded", VFun "x.unloaded"); ("api", VObj [("m", VFun "x.m")])]
             "x.unloaded"); reflexivity.
  - apply (proj2 (proj2 (proj2 (unload_only_runs_the_callback code 0 "a" saved)))
             [("loaded", VFun "a.loaded"); ("api", VFun "a.api")]); reflexivity.
Defined.

(** C10 as stated fails: [parent] names its child as [child: 'child'],
    a bare string, and the [loaded] callback of [child] is called with one
    argument, that string, and not without arguments. *)
Lemma bare_string_is_passed_as_argument :
  log (load code 2 0 [RName "parent"] saved).2 =
    log saved ++ [EvLoaded "child" 0 [VStr "child"]; EvBound "child" 0;
                  EvLoaded "parent" 0 []; EvBound "parent" 0] ∧
  log (load code 2 0 [RName "parent"] saved).2 ≠
    log saved ++ [EvLoaded "child" 0 []; EvBound "child" 0;
                  EvLoaded "parent" 0 []; EvBound "parent" 0] ∧
  host_get (heap (load code 2 0 [RName "parent"] saved).2) 0 "argc" = VNum 1.
Proof. vm_compute. repeat split; discriminate. Qed.

(** The [subjects] map of [parent]. *)
Lemma nested_subject_arguments_witness :
  _loadDeps (_load code 1) 0 (VObj [("child", VStr "child")]) saved =
  (_loadDeps (_load code 1) 0 (VObj []) ;;;
   load_one code 0 0 "child"
     [("loaded", VFun "child.loaded"); ("api", VObj [("hello", VFun "child.hello")])]
     [VStr "child"] ;;;
   _loadDeps (_load code 1) 0 (VObj [])) saved.
Proof.
  apply (nested_subject_arguments code 0 0 [] "child" (VStr "child") []
           [("loaded", VFun "child.loaded");
            ("api", VObj [("hello", VFun "child.hello")])] saved).
  reflexivity.
Defined.

End LoadExamples.

(** * More of the module *)

(** ** Validation and partial success of [save] *)

Section MoreSave.

Context (code : fid → behaviour).

Lemma save_arg_rejected d i s e :
  rejection d i (_store s) = Some e → save_arg code d i s = (Throw e, s).
Proof.
  unfold rejection, save_arg. destruct (name d) as [n|]; [|by intros [= <-]].
  destruct (isObject (options d)); simpl; [|by intros [= <-]].
  erewrite bind_step by reflexivity.
  destruct (isInStore (_store s) n); [by intros [= <-]|done].
Qed.

Lemma save_arg_no_hooks d i n s :
  name d = Some n → rejection d i (_store s) = None → no_hooks s →
  save_arg code d i s = (Ok (Z.of_nat i), (saveSubject n (options d) s).2).
Proof.
  unfold rejection, save_arg, no_hooks. intros -> Hr [Hb Ha].
  destruct (isObject (options d)); simpl in *; [|done].
  erewrite bind_step by reflexivity.
  destruct (isInStore (_store s) n); [done|].
  unfold thereAreBeforeSaveHooks. rewrite Hb. simpl.
  erewrite bind_step by reflexivity. erewrite bind_step by reflexivity.
  erewrite bind_step by reflexivity.
  unfold thereAreAfterSaveHooks. simpl. rewrite ?Ha, ?Hb. reflexivity.
Qed.

Lemma save_from_app args l i s :
  i < length args → save_from code (args ++ l) i s = save_from code args i s.
Proof.
  revert s. induction i as [|i IH]; intros s Hi; rewrite !save_from_unfold;
    unfold save_body; rewrite lookup_app_l by done.
  - done.
  - apply bind_ext. intros i' s1. destruct (0 <=? i' - 1)%Z; [|done].
    apply IH. lia.
Qed.

(** Without hooks, [save] stores its last argument and goes on with the
    arguments in front of it. *)
Lemma save_snoc_no_hooks args d n s :
  name d = Some n → rejection d (length args) (_store s) = None → no_hooks s →
  save code (args ++ [d]) s = save code args (saveSubject n (options d) s).2.
Proof.
  intros Hn Hr Hh. rewrite save_last.
  erewrite bind_step by (by apply save_arg_no_hooks).
  unfold save. destruct (length args) as [|j] eqn:Hlen; [done|].
  destruct (Z.leb_spec 0 (Z.of_nat (S j) - 1)); [|lia].
  apply save_from_app. lia.
Qed.

Lemma rejection_index d i j st :
  rejection d i st = None → rejection d j st = None.
Proof.
  unfold rejection. destruct (name d); [|done].
  by destruct (negb (isObject (options d))), (isInStore st s).
Qed.

Lemma store_all_snoc args d s :
  store_all (args ++ [d]) s =
  store_all args (match name d with
                  | Some n => (saveSubject n (options d) s).2
                  | None => s
                  end).
Proof. unfold store_all. by rewrite foldr_app. Qed.

Lemma store_all_no_hooks args s : no_hooks s → no_hooks (store_all args s).
Proof.
  intros Hh. induction args as [|d args IH]; simpl; [done|].
  by destruct (name d).
Qed.

(** The arguments of [save] that the loop reaches before a rejected one are
    stored and stay stored. *)
Lemma save_app_no_hooks args post s :
  no_hooks s →
  (∀ post1 d post2, post = post1 ++ d :: post2 →
     rejection d 0 (_store (store_all post2 s)) = None) →
  save code (args ++ post) s = save code args (store_all post s).
Proof.
  revert s. induction post as [|d post IH] using rev_ind; intros s Hh Hok.
  - by rewrite app_nil_r.
  - rewrite app_assoc, store_all_snoc.
    assert (rejection d 0 (_store s) = None) as Hd.
    { apply (Hok post d []). done. }
    destruct (name d) as [n|] eqn:Hn; [|by unfold rejection in Hd; rewrite Hn in Hd].
    rewrite (save_snoc_no_hooks _ d n) by (done || by eapply rejection_index).
    apply IH; [done|].
    intros post1 d' post2 ->.
    specialize (Hok post1 d' (post2 ++ [d])).
    rewrite store_all_snoc, Hn in Hok. apply Hok. by rewrite <- app_assoc.
Qed.

#[local] Instance stored_at_most_po n opts : PreOrder (stored_at_most n opts).
Proof.
  unfold stored_at_most. split.
  - intros s. by left.
  - intros s1 s2 s3 [H1|H1] [H2|H2]; rewrite H2, H1; auto.
    right. by rewrite insert_insert_eq.
Qed.

#[local] Instance same_hooks_po : PreOrder same_hooks.
Proof.
  unfold same_hooks. split; [by intros s|].
  intros s1 s2 s3 [??] [??]. split; congruence.
Qed.

Lemma preserves_weaken {A} (R1 R2 : relation state) (m : M A) :
  (∀ s s', R1 s s' → R2 s s') → preserves R1 m → preserves R2 m.
Proof. intros H Hm s. apply H, Hm. Qed.

Lemma save_tail_preserves (R : relation state) `{!PreOrder R} d n i1 :
  (∀ s s', same_module s s' → R s s') →
  preserves R (saveSubject n (options d)) →
  preserves R
    (s <- get_state ;;
     if isInStore (_store s) n then throw (AlreadyExists n) else
     i1 <- (if thereAreBeforeSaveHooks s
            then run_hooks code EvBeforeSave (saveHooks_before s) n (options d) ;;;
                 ret (-1)%Z
            else ret i1) ;;
     saveSubject n (options d) ;;;
     s' <- get_state ;;
     if thereAreAfterSaveHooks s'
     then run_hooks code EvAfterSave (saveHooks_after s') n (options d) ;;; ret (-1)%Z
     else ret i1).
Proof.
  intros Hsm Hst.
  assert (∀ mk hooks, preserves R (run_hooks code mk hooks n (options d))) as Hrun.
  { intros. eapply preserves_weaken; [exact Hsm|apply run_hooks_same_module]. }
  repeat preserves_step.
  Unshelve. all: first [exact unit|exact tt].
Qed.

Lemma save_arg_preserves (R : relation state) `{!PreOrder R} d i :
  (∀ s s', same_module s s' → R s s') →
  (∀ n, name d = Some n → isObject (options d) = true →
     preserves R (saveSubject n (options d))) →
  preserves R (save_arg code d i).
Proof.
  intros Hsm Hst. unfold save_arg. destruct (name d) as [n|] eqn:Hn; [|by intros s].
  destruct (isObject (options d)) eqn:Ho; [|by intros s]. simpl.
  apply save_tail_preserves; auto.
Qed.

Lemma save_preserves (R : relation state) `{!PreOrder R} args :
  (∀ s s', same_module s s' → R s s') →
  (∀ d n, d ∈ args → name d = Some n → isObject (options d) = true →
     preserves R (saveSubject n (options d))) →
  preserves R (save code args).
Proof.
  intros Hsm Hst.
  assert (∀ i, preserves R (save_from code args i)) as Hfrom.
  { assert (∀ i, preserves R (save_body code args i)) as Hbody.
    { intros i. unfold save_body. destruct (args !! i) as [d|] eqn:Hd; [|by intros ?].
      apply save_arg_preserves; try apply _; [done|]. intros. eapply Hst; [|done..].
      by eapply list_elem_of_lookup_2. }
    induction i as [|i IH]; intros s; rewrite save_from_unfold.
    - eapply preserves_bind; try apply _; [apply Hbody|].
      intros; eapply preserves_ret; apply _.
    - eapply preserves_bind; try apply _; [apply Hbody|].
      intros i'. destruct (0 <=? i' - 1)%Z; [apply IH|by intros ?]. }
  unfold save. destruct (length args); [by intros ?|apply Hfrom].
Qed.

Lemma save_arg_store d i s :
  _store (save_arg code d i s).2 = _store s ∨
  ∃ n, name d = Some n ∧ isObject (options d) = true ∧
       _store (save_arg code d i s).2 = <[n := options d]> (_store s).
Proof.
  destruct (name d) as [n|] eqn:Hn; [|left; unfold save_arg; by rewrite Hn].
  destruct (isObject (options d)) eqn:Ho; [|left; unfold save_arg; by rewrite Hn, Ho].
  destruct (save_arg_preserves (stored_at_most n (options d)) d i) with (s := s)
    as [H|H].
  - intros s1 s2 (H & _). by left.
  - intros n' Hn' _ s1. right. by simplify_eq.
  - by left.
  - right. eauto.
Qed.

Lemma save_same_hooks args : preserves same_hooks (save code args).
Proof.
  apply save_preserves; [apply _|by intros s s' (_ & ? & ?)|].
  by intros d n _ _ _ s.
Qed.

Lemma save_arg_Ok d i s i' s' :
  save_arg code d i s = (Ok i', s') →
  ∃ n, name d = Some n ∧ isObject (options d) = true ∧
       isInStore (_store s) n = false ∧
       _store s' = <[n := options d]> (_store s).
Proof.
  unfold save_arg. destruct (name d) as [n|]; [|done].
  destruct (isObject (options d)); [|done]. simpl. intros H.
  erewrite bind_step in H by reflexivity.
  destruct (isInStore (_store s) n) eqn:Hin; [done|].
  exists n. repeat split; try done.
  invert_bind H as i1 s1 Hbefore.
  assert (_store s1 = _store s) as Hs1.
  { destruct (thereAreBeforeSaveHooks s).
    - invert_bind Hbefore as u s2 Hrun. injection Hbefore as _ <-.
      pose proof (run_hooks_same_module code EvBeforeSave (saveHooks_before s) n
                    (options d) s) as Hm.
      rewrite Hrun in Hm. by destruct Hm.
    - by injection Hbefore as _ <-. }
  erewrite bind_step in H by reflexivity.
  erewrite bind_step in H by reflexivity.
  match type of H with
  | (if ?b then _ else _) ?s2 = _ => destruct b
  end.
  - invert_bind H as u s3 Hrun. injection H as _ <-.
    match type of Hrun with
    | run_hooks _ _ ?hs _ _ ?s2 = _ =>
        pose proof (run_hooks_same_module code EvAfterSave hs n (options d) s2) as Hm
    end.
    rewrite Hrun in Hm. destruct Hm as (Hm & _). simpl in Hm.
    by rewrite Hm, Hs1.
  - injection H as _ <-. simpl. by rewrite Hs1.
Qed.

Lemma save_rejected_last args d s e :
  rejection d (length args) (_store s) = Some e →
  save code (args ++ [d]) s = (Throw e, s).
Proof.
  intros Hr. rewrite save_last. by apply bind_Throw_l, save_arg_rejected.
Qed.

Lemma isInStore_lookup st st' n :
  st' !! n = st !! n → isInStore st' n = isInStore st n.
Proof. unfold isInStore, store_get. by intros ->. Qed.

Lemma store_all_lookup_other args s n :
  Some n ∉ names_of args → _store (store_all args s) !! n = _store s !! n.
Proof.
  induction args as [|d args IH]; simpl; [done|]. intros Hn.
  apply not_elem_of_cons in Hn as [Hd Hn].
  destruct (name d) as [n'|] eqn:Hn'; [|by apply IH].
  simpl. rewrite lookup_insert_ne by congruence. by apply IH.
Qed.

Lemma store_all_lookup args s d n :
  NoDup (names_of args) → d ∈ args → name d = Some n →
  _store (store_all args s) !! n = Some (options d).
Proof.
  induction args as [|d0 args IH]; simpl; [by intros _ ?%elem_of_nil|].
  intros [Hnotin Hnd]%NoDup_cons [->|Hd]%elem_of_cons Hn.
  - rewrite Hn. simpl. by rewrite lookup_insert_eq.
  - destruct (name d0) as [n0|] eqn:Hn0; [|by apply IH].
    simpl. rewrite lookup_insert_ne; [by apply IH|].
    intros ->. apply Hnotin. rewrite <- Hn. by apply list_elem_of_fmap_2.
Qed.

(** Definitions that are well formed, have different names and are not in
    the registry are all accepted, whatever the order. *)
Lemma fresh_args_accepted args s :
  Forall (λ d, is_Some (name d) ∧ isObject (options d) = true) args →
  NoDup (names_of args) →
  (∀ d n, d ∈ args → name d = Some n → isInStore (_store s) n = false) →
  ∀ post1 d post2, args = post1 ++ d :: post2 →
    rejection d 0 (_store (store_all post2 s)) = None.
Proof.
  intros Hwf Hnd Hnew post1 d post2 ->.
  apply Forall_app in Hwf as [_ Hwf].
  apply Forall_cons_1 in Hwf as [[[n Hn] Ho] _].
  unfold rejection. rewrite Hn, Ho. simpl.
  rewrite (isInStore_lookup (_store s)).
  - rewrite (Hnew d n); [done| |done]. apply elem_of_app. right. by left.
  - apply store_all_lookup_other. unfold names_of in *.
    rewrite fmap_app, fmap_cons in Hnd.
    apply NoDup_app in Hnd as (_ & _ & Hnd). apply NoDup_cons in Hnd as [Hnd _].
    by rewrite <- Hn.
Qed.

End MoreSave.

Section SaveExtras.

Context (code : fid → behaviour).

Lemma store_all_log args s :
  Forall (λ d, is_Some (name d)) args →
  log (store_all args s) =
  log s ++ map (λ d, EvSaved (default "" (name d)) (options d)) (rev args).
Proof.
  induction args as [|d args IH]; intros Hn; simpl.
  - by rewrite app_nil_r.
  - apply Forall_cons_1 in Hn as [[n Hn] Hargs]. rewrite Hn. simpl.
    rewrite IH, map_app by done. simpl. rewrite Hn. simpl.
    by rewrite <- app_assoc.
Qed.

Lemma store_all_heap args s : heap (store_all args s) = heap s.
Proof. induction args as [|d args IH]; simpl; [done|]. by destruct (name d). Qed.

(** X1: [save] validates an argument before it does anything with it.  The
    argument it processes first, the last one, is rejected with the state
    unchanged when it has no name, when its options are not an object, or
    when its name is taken, in this order of precedence; the first two
    errors carry the position of the argument. *)
Theorem save_rejects_before_any_effect args d s e :
  rejection d (length args) (_store s) = Some e →
  save code (args ++ [d]) s = (Throw e, s).
Proof. apply save_rejected_last. Qed.

(** X2: with no hook registered, a [save] of well-formed definitions with
    different names, none of them taken, returns and stores every one of
    them, the last argument first; afterwards each name is found with its
    own definition, and the heap is untouched. *)
Theorem save_without_hooks_stores_all args s :
  no_hooks s →
  Forall (λ d, is_Some (name d) ∧ isObject (options d) = true) args →
  NoDup (names_of args) →
  (∀ d n, d ∈ args → name d = Some n → isInStore (_store s) n = false) →
  save code args s = (Ok tt, store_all args s) ∧
  (∀ d n, d ∈ args → name d = Some n →
     find_subject n (store_all args s) = (Ok (options d), store_all args s)) ∧
  log (store_all args s) =
    log s ++ map (λ d, EvSaved (default "" (name d)) (options d)) (rev args) ∧
  heap (store_all args s) = heap s.
Proof.
  intros Hh Hwf Hnd Hnew. repeat split.
  - change args with ([] ++ args) at 1.
    rewrite save_app_no_hooks; [done..|]. by apply fresh_args_accepted.
  - intros d n Hd Hn. apply find_subject_Some.
    + by apply store_all_lookup.
    + rewrite Forall_forall in Hwf. destruct (Hwf d Hd) as [_ Ho].
      intros Hu. by rewrite Hu in Ho.
  - apply store_all_log. eapply Forall_impl; [exact Hwf|]. by intros d [? _].
  - apply store_all_heap.
Qed.

(** X3: with no hook registered, a [save] that rejects an argument keeps
    what it has stored by then: the arguments behind the rejected one, which
    the loop reaches first, are in the registry when the error is raised,
    and the arguments in front of it are neither checked nor stored. *)
Theorem save_keeps_earlier_stores pre d post s e :
  no_hooks s →
  Forall (λ d, is_Some (name d) ∧ isObject (options d) = true) post →
  NoDup (names_of post) →
  (∀ d n, d ∈ post → name d = Some n → isInStore (_store s) n = false) →
  rejection d (length pre) (_store (store_all post s)) = Some e →
  save code (pre ++ d :: post) s = (Throw e, store_all post s) ∧
  (∀ d' n, d' ∈ post → name d' = Some n →
     _store (store_all post s) !! n = Some (options d')).
Proof.
  intros Hh Hwf Hnd Hnew Hrej. split.
  - rewrite cons_middle, app_assoc.
    rewrite save_app_no_hooks; [|done|by apply fresh_args_accepted].
    by apply save_rejected_last.
  - intros d' n Hd Hn. by apply store_all_lookup.
Qed.

(** X4: as soon as one hook is registered, before or after, [save] only
    processes its last argument: the call is the loop body on that argument
    alone, and no other name enters the registry, whatever the arguments in
    front of it are. *)
Theorem hook_makes_save_skip_arguments args d s :
  some_hook s →
  save code (args ++ [d]) s = (save_arg code d (length args) ;;; ret tt) s ∧
  (∀ n, name d ≠ Some n →
     _store (save code (args ++ [d]) s).2 !! n = _store s !! n).
Proof.
  intros Hh. pose proof (save_with_hooks_only_last code args d s Hh) as Heq.
  split; [done|]. intros n Hn. rewrite Heq.
  assert (((save_arg code d (length args) ;;; ret tt) s).2 =
          (save_arg code d (length args) s).2) as ->.
  { unfold bind. by destruct (save_arg code d (length args) s) as [[?| |] ?]. }
  destruct (save_arg_store code d (length args) s) as [->|(n' & Hn' & _ & ->)];
    [done|].
  rewrite lookup_insert_ne; [done|]. congruence.
Qed.

(** X5: a definition [save] has accepted is found afterwards: when a call
    of [save] returns, the name of its last argument looks up to the options
    given, and a second save of that definition fails as a duplicate and
    changes nothing. *)
Theorem saved_definition_is_found args d s s' :
  save code (args ++ [d]) s = (Ok tt, s') →
  ∃ n, name d = Some n ∧
       find_subject n s' = (Ok (options d), s') ∧
       ∀ args', save code (args' ++ [d]) s' = (Throw (AlreadyExists n), s').
Proof.
  intros H. rewrite save_last in H. invert_bind H as i' s1 Harg.
  destruct (save_arg_Ok code _ _ _ _ _ Harg) as (n & Hn & Ho & _ & Hs1).
  assert (options d ≠ VUndef) as Hne by (intros Hu; by rewrite Hu in Ho).
  assert (_store s' !! n = Some (options d)) as Hs'.
  { assert (entries_kept s1 s') as Hk.
    { destruct (length args) as [|j]; [by injection H as <-|].
      destruct (0 <=? i' - 1)%Z; [|by injection H as <-].
      pose proof (save_from_entries_kept code (args ++ [d]) j s1) as Hk.
      by rewrite H in Hk. }
    apply Hk; [|done]. by rewrite Hs1, lookup_insert_eq. }
  exists n. repeat split; [done|by apply find_subject_Some|].
  intros args'. apply save_rejected_last. unfold rejection.
  rewrite Hn, Ho. simpl. by rewrite (isInStore_Some _ _ _ Hs' Hne).
Qed.

(** X6: there is no rollback.  When the before-save hooks of a definition
    return and its after-save hooks end in an error, [save] ends in that
    error and the definition is in the registry all the same. *)
Theorem after_hook_error_keeps_definition args d n s s1 e s2 :
  name d = Some n → rejection d (length args) (_store s) = None →
  run_hooks code EvBeforeSave (saveHooks_before s) n (options d) s = (Ok tt, s1) →
  run_hooks code EvAfterSave (saveHooks_after s) n (options d)
    (saveSubject n (options d) s1).2 = (Throw e, s2) →
  save code (args ++ [d]) s = (Throw e, s2) ∧
  _store s2 = <[n := options d]> (_store s).
Proof.
  intros Hn Hrej Hb Ha.
  pose proof (run_hooks_same_module code EvBeforeSave (saveHooks_before s) n
                (options d) s) as Hm1.
  rewrite Hb in Hm1. destruct Hm1 as (Hst1 & _ & Haf1). simpl in *.
  split.
  - rewrite save_last. apply bind_Throw_l. unfold save_arg, rejection in *.
    rewrite Hn in *. destruct (isObject (options d)); [|done]. simpl in *.
    erewrite bind_step by reflexivity.
    destruct (isInStore (_store s) n); [done|].
    assert ((if thereAreBeforeSaveHooks s
             then run_hooks code EvBeforeSave (saveHooks_before s) n (options d) ;;;
                  ret (-1)%Z
             else ret (Z.of_nat (length args))) s =
            (Ok (if thereAreBeforeSaveHooks s then (-1)%Z
                 else Z.of_nat (length args)), s1)) as Hbefore.
    { unfold thereAreBeforeSaveHooks in *.
      destruct (saveHooks_before s) as [|hk hooks]; simpl.
      - rewrite run_hooks_nil in Hb. by injection Hb as <-.
      - by erewrite bind_step by exact Hb. }
    erewrite bind_step by exact Hbefore.
    erewrite bind_step by reflexivity. erewrite bind_step by reflexivity.
    unfold thereAreAfterSaveHooks. simpl. rewrite Haf1.
    destruct (saveHooks_after s) as [|hk hooks] eqn:Hhooks.
    + by rewrite run_hooks_nil in Ha.
    + simpl. apply bind_Throw_l. rewrite Haf1 in Ha. exact Ha.
  - pose proof (run_hooks_same_module code EvAfterSave (saveHooks_after s) n
                  (options d) (saveSubject n (options d) s1).2) as Hm2.
    simpl in Hm2. rewrite Ha in Hm2. destruct Hm2 as (Hst2 & _). simpl in Hst2.
    by rewrite Hst2, Hst1.
Qed.

End SaveExtras.

(** ** Edges of the loader *)

Section MoreLoad.

Context (code : fid → behaviour).

Lemma bind_eq_l {A B} (m m' : M A) (k : A → M B) s :
  m s = m' s → bind m k s = bind m' k s.
Proof. unfold bind. by intros ->. Qed.

Lemma load_first_step fuel host refs r s :
  _load code (S fuel) host (refs ++ [r]) s =
  (v <- load_step code (_load code fuel) host r locals0 ;;
   v' <- for_each (load_step code (_load code fuel) host) (rev refs) v ;;
   ret (loadedResults v')) s.
Proof. rewrite _load_S, rev_app_distr. cbn [rev app for_each]. by rewrite bind_assoc. Qed.

(** An iteration of [_load] on a reference to a registered subject. *)
Lemma load_step_registered fuel host r n o v s :
  ref_name r = Some n → _store s !! n = Some (VObj o) →
  load_step code (_load code fuel) host r v s =
  (res <- load_one code fuel host n o (args_used r v) ;;
   ret (Locals (VObj o) n (args_kept r v) (loadedResults v ++ res))) s.
Proof.
  intros Hr Hn. unfold load_step.
  assert (∀ au ak,
    bind (subj <- find_subject n ;;
          deps <- field subj "subjects" ;;
          (if truthy deps then _loadDeps (_load code fuel) host deps else ret tt) ;;;
          ld <- field subj "loaded" ;;
          res <- (if truthy ld && isFunction ld
                  then emit (EvLoaded n host au) ;;;
                       x <- call code ld (VRef host) au ;;
                       ret (loadedResults v ++ [x])
                  else ret (loadedResults v)) ;;
          ret (Locals subj n ak res))
         (λ v', attach_api host (subject v') (subjectName v') ;;; ret v') s =
    (res <- load_one code fuel host n o au ;;
     ret (Locals (VObj o) n ak (loadedResults v ++ res))) s) as Hgen.
  { intros au ak. unfold load_one. rewrite !bind_assoc.
    erewrite bind_step by (by apply find_subject_Some).
    rewrite bind_assoc. erewrite bind_step by reflexivity.
    rewrite bind_assoc. apply bind_ext. intros [] s1.
    rewrite bind_assoc. erewrite bind_step by reflexivity.
    destruct (isFunction (prop_of o "loaded")) eqn:Hf.
    - rewrite (isFunction_truthy _ Hf). simpl. unfold bind. simpl.
      destruct (call _ _ _ _ _) as [[x| |] s2]; [|done..].
      simpl. by destruct (attach_api _ _ _ _) as [[[]| |] s3].
    - rewrite andb_false_r. unfold bind. simpl.
      destruct (attach_api _ _ _ _) as [[[]| |] s3]; [|done..].
      simpl. by rewrite app_nil_r. }
  destruct r as [n'|n' [args'|]|]; simplify_eq/=; apply Hgen.
Qed.

Lemma load_one_same_module fuel host n o args :
  preserves same_module (load_one code fuel host n o args).
Proof.
  unfold load_one.
  pose proof (call_same_module code). pose proof attach_api_same_module.
  pose proof emit_same_module.
  pose proof (λ ctx subj, loadDeps_same_module (_load code fuel) ctx subj
                            (load_same_module code fuel)).
  repeat preserves_step.
Qed.

(** X7: a load of a name that is not in the registry (and is no member of
    [Object.prototype]) ends in the not-found error; when the reference is
    the last one, the one the loop reaches first, nothing has happened by
    then: the host, the registry and the log are as before. *)
Theorem load_unknown_name_changes_nothing fuel host refs r n s :
  ref_name r = Some n → _store s !! n = None → inherited n = false →
  load code (S fuel) host (refs ++ [r]) s = (Throw (NotFound n), s).
Proof.
  intros Hr Hn Hi. unfold load. apply bind_Throw_l. rewrite load_first_step.
  apply bind_Throw_l. unfold load_step. apply bind_Throw_l.
  assert (find_subject n s = (Throw (NotFound n), s)) as Hf.
  { unfold find_subject. erewrite bind_step by reflexivity.
    by rewrite (isInStore_None _ _ Hn Hi). }
  destruct r as [n'|n' args|]; simplify_eq/=; by apply bind_Throw_l.
Qed.

(** X8: an argument of [load] that is neither a string nor an array takes
    neither branch of the loop.  As the last argument it is ignored; in
    front of a reference to a registered subject it attaches the API of that
    subject a second time, since [subject] and [name] still hold the values
    of the iteration before. *)
Theorem non_reference_argument fuel host s :
  (∀ refs, load code (S fuel) host (refs ++ [ROther]) s =
           load code (S fuel) host refs s) ∧
  (∀ r n args o, ref_target r = Some (n, args) →
     _store s !! n = Some (VObj o) →
     _load code (S fuel) host [ROther; r] s =
     (res <- load_one code fuel host n o args ;;
      attach_api host (VObj o) n ;;; ret res) s).
Proof.
  split.
  - intros refs. unfold load, bind.
    assert (_load code (S fuel) host (refs ++ [ROther]) s =
            _load code (S fuel) host refs s) as ->; [|done].
    rewrite load_first_step. erewrite bind_step by reflexivity.
    by rewrite _load_S.
  - intros r n args o Hr Hn. rewrite (load_first_step fuel host [ROther] r).
    assert (ref_name r = Some n ∧ args_used r locals0 = args) as [Hname <-]
      by (by destruct r as [?|? []|]; simplify_eq/=).
    rewrite (bind_eq_l _ _ _ _ (load_step_registered fuel host r n o locals0 s Hname Hn)).
    rewrite bind_assoc. apply bind_ext. intros res s1.
    cbn [rev app for_each]. unfold load_step, load_subject.
    unfold bind. simpl. by destruct (attach_api _ _ _ _) as [[[]| |] s2].
Qed.

(** X9: [argsArray] outlives the iteration that set it.  A reference
    [[name]], an array without arguments, passes no argument to [loaded]
    when the loop reaches it first, but behind a reference
    [[other, args]] (processed before it) it passes the [args] of that
    other reference. *)
Theorem array_reference_without_arguments fuel host b ob s :
  _store s !! b = Some (VObj ob) →
  _load code (S fuel) host [RArr b None] s = load_one code fuel host b ob [] s ∧
  (∀ a oa args, _store s !! a = Some (VObj oa) →
     _load code (S fuel) host [RArr b None; RArr a (Some args)] s =
     (res1 <- load_one code fuel host a oa args ;;
      res2 <- load_one code fuel host b ob args ;;
      ret (res1 ++ res2)) s).
Proof.
  intros Hb. split.
  - rewrite load_single_step.
    rewrite (bind_eq_l _ _ _ _
               (load_step_registered fuel host (RArr b None) b ob locals0 s eq_refl Hb)).
    unfold bind. simpl. by destruct (load_one _ _ _ _ _ _ _) as [[?| |] ?].
  - intros a oa args Ha.
    rewrite (load_first_step fuel host [RArr b None] (RArr a (Some args))).
    rewrite (bind_eq_l _ _ _ _
               (load_step_registered fuel host (RArr a (Some args)) a oa locals0 s
                  eq_refl Ha)).
    rewrite bind_assoc. apply (bind_ext_on same_module);
      [apply load_one_same_module|].
    intros res1 s1 (Hs1 & _). cbn [rev app for_each].
    erewrite bind_step by reflexivity. rewrite bind_assoc.
    assert (_store s1 !! b = Some (VObj ob)) as Hb1 by (by rewrite Hs1).
    rewrite (bind_eq_l _ _ _ _
               (load_step_registered fuel host (RArr b None) b ob _ s1 eq_refl Hb1)).
    rewrite bind_assoc. apply bind_ext. by intros res2 s2.
Qed.

(** X10: a [subjects] property that is set but is not a plain object, an
    array of names or a single name for instance, makes the load of the
    subject end in an error before its [loaded] callback is called and
    before anything is attached; when the reference is the last one, the
    state is unchanged. *)
Theorem subjects_must_be_an_object fuel host refs r n o s :
  ref_name r = Some n → _store s !! n = Some (VObj o) →
  truthy (prop_of o "subjects") = true → isObject (prop_of o "subjects") = false →
  load code (S fuel) host (refs ++ [r]) s = (Throw DepsNotObject, s).
Proof.
  intros Hr Hn Ht Ho. unfold load. apply bind_Throw_l. rewrite load_first_step.
  apply bind_Throw_l. rewrite (load_step_registered fuel host r n o) by done.
  apply bind_Throw_l. unfold load_one. apply bind_Throw_l.
  rewrite Ht. unfold _loadDeps. by rewrite Ho.
Qed.

(** X11: a subject whose API is a single function [f] of the program is
    attached as that function bound to the host: after the load,
    [host[name]] called on anything runs [f] with the host as receiver. *)
Theorem api_function_bound_to_host fuel host x o f s r s' :
  _store s !! x = Some (VObj o) → prop_of o "api" = VFun f →
  load code fuel host [RName x] s = (Ok r, s') →
  host_get (heap s') host x = VBound f host ∧
  ∀ this args st,
    call code (host_get (heap s') host x) this args st =
    call code (VFun f) (VRef host) args st.
Proof.
  intros Hx Hapi H. apply load_Ok in H as (_ & fuel' & res & -> & H).
  rewrite (load_single_one code fuel' host (RName x) x [] o) in H by done.
  apply load_one_Ok in H as (s1 & s2 & _ & _ & _ & ->).
  rewrite Hapi. simpl. rewrite host_get_heap_set_eq. done.
Qed.

(** X12: a subject without [subjects] and without an API is load-only: its
    load is the call of its [loaded] callback on the host and nothing else,
    the library adds no property to the host; without a callback the load
    does nothing at all. *)
Theorem subject_without_api_adds_no_property fuel host x o s :
  _store s !! x = Some (VObj o) →
  truthy (prop_of o "subjects") = false → truthy (prop_of o "api") = false →
  load code (S fuel) host [RName x] s =
    (if isFunction (prop_of o "loaded")
     then emit (EvLoaded x host []) ;;;
          call code (prop_of o "loaded") (VRef host) [] ;;; ret VUndef
     else ret VUndef) s ∧
  (isFunction (prop_of o "loaded") = false →
   load code (S fuel) host [RName x] s = (Ok VUndef, s)).
Proof.
  intros Hx Hs Ha.
  assert (load code (S fuel) host [RName x] s =
          (if isFunction (prop_of o "loaded")
           then emit (EvLoaded x host []) ;;;
                call code (prop_of o "loaded") (VRef host) [] ;;; ret VUndef
           else ret VUndef) s) as Heq.
  { unfold load, bind at 1.
    rewrite (load_single_one code fuel host (RName x) x [] o) by done.
    unfold load_one. rewrite Hs. erewrite bind_step by reflexivity.
    destruct (isFunction (prop_of o "loaded")).
    - unfold bind. simpl.
      destruct (call _ _ _ _ _) as [[v| |] s1]; [|done..].
      simpl. by rewrite attach_api_spec, Ha.
    - unfold bind. simpl. by rewrite attach_api_spec, Ha. }
  split; [done|]. intros Hf. by rewrite Heq, Hf.
Qed.

(** X13: [load] and [unload] never touch the module: whatever their
    arguments and outcome, the registry and both hook lists are as before,
    and the log of what has been called has only grown. *)
Theorem load_and_unload_leave_module_alone fuel host refs names s :
  same_module s (load code fuel host refs s).2 ∧
  log_extends s (load code fuel host refs s).2 ∧
  same_module s (unload code host names s).2.
Proof.
  repeat split.
  - apply (preserves_bind same_module); [apply load_same_module|by intros _ ?].
  - apply (preserves_bind same_module); [apply load_same_module|by intros _ ?].
  - apply (preserves_bind same_module); [apply load_same_module|by intros _ ?].
  - apply (preserves_bind log_extends); [apply load_log_extends|by intros _ ?].
  - apply unload_same_module.
  - apply unload_same_module.
  - apply unload_same_module.
Qed.

End MoreLoad.

(** ** Recursion, names and invariants *)

Section MoreModule.

Context (code : fid → behaviour).

Lemma for_each_Ok_elem {A S} (R : relation state) `{!PreOrder R}
    (body : A → S → M S) xs acc s acc' s' x :
  (∀ x acc, preserves R (body x acc)) →
  for_each body xs acc s = (Ok acc', s') → x ∈ xs →
  ∃ a1 s1 a2 s2, R s s1 ∧ body x a1 s1 = (Ok a2, s2).
Proof.
  intros Hb. revert acc s. induction xs as [|y xs IH]; intros acc s H Hx.
  - by apply elem_of_nil in Hx.
  - cbn [for_each] in H. invert_bind H as a s1 Hy.
    apply elem_of_cons in Hx as [->|Hx].
    + exists acc, s, a, s1. split; [reflexivity|done].
    + destruct (IH _ _ H Hx) as (a1 & s2 & a2 & s3 & HR & Hbody).
      exists a1, s2, a2, s3. split; [|done].
      etrans; [|exact HR]. specialize (Hb y acc s). by rewrite Hy in Hb.
Qed.

Lemma self_dependency_blocks n o deps v st :
  st !! n = Some (VObj o) → prop_of o "subjects" = VObj deps →
  assoc n deps = Some v →
  ∀ fuel host refs s res s',
    _store s = st → (∃ r, r ∈ refs ∧ ref_name r = Some n) →
    _load code fuel host refs s ≠ (Ok res, s').
Proof.
  intros Hn Hdeps Hv. induction fuel as [|fuel IH];
    intros host refs s res s' Hs (r & Hr & Hname) H.
  - by rewrite _load_0 in H.
  - rewrite _load_S in H. invert_bind H as v' s1 Hloop.
    assert (r ∈ rev refs) as Hr'.
    { apply list_elem_of_In. apply -> in_rev. by apply list_elem_of_In. }
    destruct (for_each_Ok_elem same_module _ _ _ _ _ _ r
                (load_step_same_module code fuel host) Hloop Hr')
      as (a1 & s2 & a2 & s3 & (Hs2 & _) & Hstep).
    rewrite (load_step_registered code fuel host r n o) in Hstep
      by (done || by rewrite Hs2, Hs).
    invert_bind Hstep as res1 s4 Hone.
    apply load_one_Ok in Hone as (s5 & s6 & Hd & _).
    rewrite Hdeps in Hd. cbn [truthy] in Hd.
    destruct (assoc_Some_split _ _ _ Hv) as (d1 & d2 & ->).
    rewrite loadDeps_entry in Hd.
    invert_bind Hd as u sa Hd1. invert_bind Hd as resc sb Hrec.
    pose proof (loadDeps_same_module (_load code fuel) host (VObj d1)
                  (load_same_module code fuel) s2) as (Hsa & _).
    rewrite Hd1 in Hsa. simpl in Hsa.
    eapply (IH host [RArr n (Some (dep_args v))] sa); [|eexists; split; [by apply elem_of_cons; left|done]|done].
    by rewrite Hsa, Hs2.
Qed.

(** X14: a subject that lists itself in its [subjects] can never be
    loaded: no call of [load] that asks for it returns normally, however
    deep the recursion is allowed to go. *)
Theorem self_dependency_never_loads n o deps v s :
  _store s !! n = Some (VObj o) → prop_of o "subjects" = VObj deps →
  assoc n deps = Some v →
  ∀ fuel host refs r res,
    r ∈ refs → ref_name r = Some n →
    (load code fuel host refs s).1 ≠ Ok res.
Proof.
  intros Hn Hdeps Hv fuel host refs r res Hr Hname H.
  destruct (load code fuel host refs s) as [out s'] eqn:Hload. simpl in H. subst out.
  unfold load in Hload. invert_bind Hload as res' s1 Hl.
  eapply (self_dependency_blocks n o deps v (_store s)); eauto.
Qed.

(** X15: on a registry without dependency cycles the recursion of the
    loader ends: once the fuel exceeds the rank of every name asked for,
    [load] has an outcome (a result or an error), and more fuel never
    changes it. *)
Theorem acyclic_registry_load_ends rank fuel host refs s :
  acyclic (_store s) rank →
  (∀ r n, r ∈ refs → ref_name r = Some n → rank n ≤ fuel) →
  (load code (S fuel) host refs s).1 ≠ Diverge ∧
  ∀ fuel', S fuel ≤ fuel' →
    load code fuel' host refs s = load code (S fuel) host refs s.
Proof.
  intros Hac Hrefs. split; [by apply (load_ends code rank)|].
  intros fuel' Hle. pose proof (load_terminates code rank fuel host refs s Hac Hrefs) as Ht.
  unfold load, bind.
  destruct (_load code (S fuel) host refs s) as [r s'] eqn:Hl.
  by rewrite (load_fuel_mono code (S fuel) fuel' host refs s r s' Hle Hl Ht).
Qed.

(** X16: [unload] takes all the arguments after the host as one name: the
    registry is asked for the names joined by commas.  With two names, both
    registered or not, the call ends in the not-found error for the joined
    name and runs no callback, unless a subject of that very name exists. *)
Theorem unload_joins_its_names host names s :
  _store s !! String.concat "," names = None →
  inherited (String.concat "," names) = false →
  unload code host names s = (Throw (NotFound (String.concat "," names)), s).
Proof.
  intros Hn Hi. unfold unload. erewrite bind_step by reflexivity.
  by rewrite (isInStore_None _ _ Hn Hi).
Qed.

Lemma find_subject_inherited n s :
  _store s !! n = None → inherited n = true →
  find_subject n s = (Ok (VBuiltin n), s).
Proof.
  intros Hn Hi. unfold find_subject. erewrite bind_step by reflexivity.
  unfold isInStore, store_get. by rewrite Hn, Hi.
Qed.

(** X17: the registry is a plain object, so the names of the members of
    [Object.prototype] count as taken though nobody saved them: a save under
    such a name fails as a duplicate, a load of it returns having done
    nothing, and so does an unload. *)
Theorem prototype_names_are_taken n s :
  inherited n = true → _store s !! n = None →
  (∀ args d, name d = Some n → isObject (options d) = true →
     save code (args ++ [d]) s = (Throw (AlreadyExists n), s)) ∧
  (∀ fuel host, load code (S fuel) host [RName n] s = (Ok VUndef, s)) ∧
  (∀ host, unload code host [n] s = (Ok VUndef, s)).
Proof.
  intros Hi Hn. repeat split.
  - intros args d Hd Ho. apply save_rejected_last. unfold rejection.
    rewrite Hd, Ho. simpl. unfold isInStore, store_get. by rewrite Hn, Hi.
  - intros fuel host. unfold load. rewrite bind_eq_l with (m' := ret []); [done|].
    rewrite load_single_step. unfold load_step, load_subject.
    rewrite !bind_assoc. erewrite bind_step by (by apply find_subject_inherited).
    reflexivity.
  - intros host. by apply unload_inherited_name.
Qed.

Lemma load_call_same_module fuel host refs :
  preserves same_module (load code fuel host refs).
Proof.
  apply (preserves_bind same_module); [apply load_same_module|by intros _ ?].
Qed.

Lemma save_store_objects args s :
  store_objects s → store_objects (save code args s).2.
Proof.
  set (R := λ s s' : state, store_objects s → store_objects s').
  assert (PreOrder R) as HR.
  { split; [intros s1 H; exact H|]. intros s1 s2 s3 H1 H2 H. apply H2, H1, H. }
  revert s. change (preserves R (save code args)).
  apply save_preserves; [done| |].
  - intros s1 s2 (Hst & _) H n v. rewrite Hst. apply H.
  - intros d n _ _ Ho s1 H n' v. simpl.
    destruct (decide (n = n')) as [<-|?].
    + rewrite lookup_insert_eq. by intros [= <-].
    + rewrite lookup_insert_ne by done. apply H.
Qed.

Lemma run_op_same_hooks_or_added fuel o s :
  (∀ f, o ≠ OBeforeSave f ∧ o ≠ OAfterSave f) →
  same_hooks s (run_op code fuel o s).
Proof.
  intros Ho. destruct o as [args|host refs|host names|f|f]; simpl.
  - apply save_same_hooks.
  - destruct (load_call_same_module fuel host refs s) as (_ & ? & ?). by split.
  - destruct (unload_same_module code host names s) as (_ & ? & ?). by split.
  - by destruct (Ho f) as [? _].
  - by destruct (Ho f) as [_ ?].
Qed.

Lemma run_op_store_objects fuel o s :
  store_objects s → store_objects (run_op code fuel o s).
Proof.
  intros H. destruct o as [args|host refs|host names|f|f]; simpl.
  - by apply save_store_objects.
  - destruct (load_call_same_module fuel host refs s) as (Hs & _).
    intros n v. rewrite Hs. apply H.
  - destruct (unload_same_module code host names s) as (Hs & _).
    intros n v. rewrite Hs. apply H.
  - unfold before_save. by destruct (isFunction f).
  - unfold after_save. by destruct (isFunction f).
Qed.

Lemma run_op_hooks_callable fuel o s :
  hooks_callable s → hooks_callable (run_op code fuel o s).
Proof.
  intros [Hb Ha]. destruct o as [args|host refs|host names|f|f].
  - destruct (run_op_same_hooks_or_added fuel (OSave args) s) as [Hb' Ha'];
      [done|]. unfold hooks_callable. by rewrite Hb', Ha'.
  - destruct (run_op_same_hooks_or_added fuel (OLoad host refs) s) as [Hb' Ha'];
      [done|]. unfold hooks_callable. by rewrite Hb', Ha'.
  - destruct (run_op_same_hooks_or_added fuel (OUnload host names) s) as [Hb' Ha'];
      [done|]. unfold hooks_callable. by rewrite Hb', Ha'.
  - simpl. unfold before_save. destruct (isFunction f) eqn:Hf; simpl; [|done].
    split; [|done]. simpl. apply Forall_app. auto.
  - simpl. unfold after_save. destruct (isFunction f) eqn:Hf; simpl; [|done].
    split; [done|]. simpl. apply Forall_app. auto.
Qed.

(** X18: the registry only ever holds objects.  From the empty module,
    whatever calls of [save], [load], [unload], [before.save] and
    [after.save] are made and however they end, every definition in the
    registry is an object, so the loader can read [subjects], [loaded],
    [unloaded] and [api] off it. *)
Theorem registry_only_holds_objects fuel h os :
  store_objects (run_ops code fuel os (initial h)).
Proof.
  unfold run_ops.
  assert (store_objects (initial h)) as H0 by (by intros n v).
  revert H0. generalize (initial h). induction os as [|o os IH]; intros s Hs; simpl.
  - done.
  - by apply IH, run_op_store_objects.
Qed.

(** X19: the hook lists only ever hold functions.  [before.save] and
    [after.save] reject anything else with an error and leave the state as
    it is, and no other call changes the lists, so every hook [save] calls
    is callable. *)
Theorem hook_lists_only_hold_functions fuel h os :
  hooks_callable (run_ops code fuel os (initial h)) ∧
  (∀ f s, isFunction f = false →
     before_save f s = (Throw HooksMustBeFunctions, s) ∧
     after_save f s = (Throw HooksMustBeFunctions, s)).
Proof.
  split.
  - unfold run_ops.
    assert (hooks_callable (initial h)) as H0 by (by split).
    revert H0. generalize (initial h).
    induction os as [|o os IH]; intros s Hs; simpl; [done|].
    by apply IH, run_op_hooks_callable.
  - intros f s Hf. unfold before_save, after_save. by rewrite Hf.
Qed.

End MoreModule.

(** ** The further statements on the scenario *)

Module MoreExamples.
Import Scenario Cases.

Ltac concrete_member H :=
  repeat (apply elem_of_cons in H as [->|H]); [..|by apply elem_of_nil in H].

(** A definition without a name, behind a good one. *)
Lemma save_rejects_before_any_effect_witness :
  save code [a; nameless] (initial fresh) = (Throw (NoName 1), initial fresh).
Proof.
  apply (save_rejects_before_any_effect code [a] nameless (initial fresh)).
  reflexivity.
Defined.

(** Two definitions saved into the empty module. *)
Lemma save_without_hooks_stores_all_witness :
  save code [a; b] (initial fresh) = (Ok tt, store_all [a; b] (initial fresh)) ∧
  (∀ d n, d ∈ [a; b] → name d = Some n →
     find_subject n (store_all [a; b] (initial fresh)) =
       (Ok (options d), store_all [a; b] (initial fresh))) ∧
  log (store_all [a; b] (initial fresh)) =
    log (initial fresh) ++
    map (λ d, EvSaved (default "" (name d)) (options d)) (rev [a; b]) ∧
  heap (store_all [a; b] (initial fresh)) = heap (initial fresh).
Proof.
  apply (save_without_hooks_stores_all code [a; b] (initial fresh)).
  - split; reflexivity.
  - repeat constructor; eexists; reflexivity.
  - apply (bool_decide_unpack _). vm_compute. exact I.
  - intros d n Hd Hn. concrete_member Hd; injection Hn as <-; reflexivity.
Defined.

(** The definition without a name between two good ones. *)
Lemma save_keeps_earlier_stores_witness :
  save code [a; nameless; b] (initial fresh) =
    (Throw (NoName 1), store_all [b] (initial fresh)) ∧
  (∀ d' n, d' ∈ [b] → name d' = Some n →
     _store (store_all [b] (initial fresh)) !! n = Some (options d')).
Proof.
  apply (save_keeps_earlier_stores code [a] nameless [b] (initial fresh) (NoName 1)).
  - split; reflexivity.
  - repeat constructor; eexists; reflexivity.
  - apply (bool_decide_unpack _). vm_compute. exact I.
  - intros d n Hd Hn. concrete_member Hd; injection Hn as <-; reflexivity.
  - reflexivity.
Defined.

(** One before-save hook, and a save of two definitions. *)
Lemma hook_makes_save_skip_arguments_witness :
  save code [b; a] hooked = (save_arg code a 1 ;;; ret tt) hooked ∧
  (∀ n, name a ≠ Some n →
     _store (save code [b; a] hooked).2 !! n = _store hooked !! n).
Proof.
  apply (hook_makes_save_skip_arguments code [b] a hooked).
  left. vm_compute. discriminate.
Defined.

(** The save of [a] into the empty module, and what follows it. *)
Lemma saved_definition_is_found_witness :
  ∃ n, name a = Some n ∧
       find_subject n (save code [a] (initial fresh)).2 =
         (Ok (options a), (save code [a] (initial fresh)).2) ∧
       ∀ args', save code (args' ++ [a]) (save code [a] (initial fresh)).2 =
                (Throw (AlreadyExists n), (save code [a] (initial fresh)).2).
Proof.
  apply (saved_definition_is_found code [] a (initial fresh)
           (save code [a] (initial fresh)).2).
  reflexivity.
Defined.

(** The before-save hook returns, the after-save hook throws. *)
Lemma after_hook_error_keeps_definition_witness :
  save code [a] after_veto =
    (Throw (Thrown (VStr "no")), (save code [a] after_veto).2) ∧
  _store (save code [a] after_veto).2 = <["a" := options a]> (_store after_veto).
Proof.
  apply (after_hook_error_keeps_definition code [] a "a" after_veto
           (run_hooks code EvBeforeSave (saveHooks_before after_veto) "a"
              (options a) after_veto).2
           (Thrown (VStr "no")) (save code [a] after_veto).2); reflexivity.
Defined.

(** A name nobody registered, behind a registered one. *)
Lemma load_unknown_name_changes_nothing_witness :
  load code 1 0 [RName "a"; RName "nobody"] saved = (Throw (NotFound "nobody"), saved).
Proof.
  apply (load_unknown_name_changes_nothing code 0 0 [RName "a"] (RName "nobody")
           "nobody" saved); reflexivity.
Defined.

(** A number in front of the name of [a]. *)
Lemma non_reference_argument_witness :
  _load code 1 0 [ROther; RName "a"] saved =
  (res <- load_one code 0 0 "a" [("loaded", VFun "a.loaded"); ("api", VFun "a.api")] [] ;;
   attach_api 0 (options a) "a" ;;; ret res) saved.
Proof.
  apply (proj2 (non_reference_argument code 0 0 saved) (RName "a") "a" []
           [("loaded", VFun "a.loaded"); ("api", VFun "a.api")]); reflexivity.
Defined.

(** [["b"]] alone, and in front of [["a", [1]]]. *)
Lemma array_reference_without_arguments_witness :
  _load code 1 0 [RArr "b" None] saved =
    load_one code 0 0 "b" [("loaded", VFun "b.loaded"); ("api", VFun "b.api")] [] saved ∧
  _load code 1 0 [RArr "b" None; RArr "a" (Some [VNum 1])] saved =
    (res1 <- load_one code 0 0 "a"
               [("loaded", VFun "a.loaded"); ("api", VFun "a.api")] [VNum 1] ;;
     res2 <- load_one code 0 0 "b"
               [("loaded", VFun "b.loaded"); ("api", VFun "b.api")] [VNum 1] ;;
     ret (res1 ++ res2)) saved.
Proof.
  destruct (array_reference_without_arguments code 0 0 "b"
              [("loaded", VFun "b.loaded"); ("api", VFun "b.api")] saved eq_refl)
    as [H1 H2].
  split; [exact H1|].
  exact (H2 "a" [("loaded", VFun "a.loaded"); ("api", VFun "a.api")] [VNum 1] eq_refl).
Defined.

(** The dependencies of [listed] are an array. *)
Lemma subjects_must_be_an_object_witness :
  load code 1 0 [RName "a"; RName "listed"] stocked = (Throw DepsNotObject, stocked).
Proof.
  apply (subjects_must_be_an_object code 0 0 [RName "a"] (RName "listed") "listed"
           [("subjects", VArr [VStr "child"]); ("loaded", VFun "listed.loaded")]
           stocked); reflexivity.
Defined.

(** The API of [greet] is the function that returns its receiver. *)
Lemma api_function_bound_to_host_witness :
  host_get (heap (load code 1 0 [RName "greet"] stocked).2) 0 "greet" =
    VBound "whoami" 0 ∧
  ∀ this args st,
    call code (host_get (heap (load code 1 0 [RName "greet"] stocked).2) 0 "greet")
      this args st =
    call code (VFun "whoami") (VRef 0) args st.
Proof.
  apply (api_function_bound_to_host code 1 0 "greet" [("api", VFun "whoami")]
           "whoami" stocked VUndef (load code 1 0 [RName "greet"] stocked).2);
    reflexivity.
Defined.

(** [setup] has a [loaded] callback and nothing else. *)
Lemma subject_without_api_adds_no_property_witness :
  load code 1 0 [RName "setup"] stocked =
    (emit (EvLoaded "setup" 0 []) ;;;
     call code (VFun "counter.loaded") (VRef 0) [] ;;; ret VUndef) stocked.
Proof.
  apply (proj1 (subject_without_api_adds_no_property code 0 0 "setup"
                  [("loaded", VFun "counter.loaded")] stocked
                  eq_refl eq_refl eq_refl)).
Defined.

(** [selfish] lists itself. *)
Lemma self_dependency_never_loads_witness :
  (load code 3 0 [RName "selfish"] stocked).1 ≠ Ok VUndef.
Proof.
  apply (self_dependency_never_loads code "selfish"
           [("subjects", VObj [("child", VStr "child"); ("selfish", VArr [])]);
            ("loaded", VFun "selfish.loaded")]
           [("child", VStr "child"); ("selfish", VArr [])] (VArr []) stocked
           eq_refl eq_refl eq_refl 3 0 [RName "selfish"] (RName "selfish") VUndef);
    [by apply elem_of_cons; left|reflexivity].
Defined.

(** The parent, whose rank is 1. *)
Lemma acyclic_registry_load_ends_witness :
  (load code 2 0 [RName "parent"] saved).1 ≠ Diverge ∧
  ∀ fuel', 2 ≤ fuel' →
    load code fuel' 0 [RName "parent"] saved = load code 2 0 [RName "parent"] saved.
Proof.
  apply (acyclic_registry_load_ends code
           (λ n, if String.eqb n "parent" then 1 else 0) 1 0 [RName "parent"] saved).
  - apply LoadExamples.scenario_acyclic.
  - intros r n Hr Hn. concrete_member Hr. injection Hn as <-. vm_compute. lia.
Defined.

(** Two registered names in one call. *)
Lemma unload_joins_its_names_witness :
  unload code 0 ["a"; "b"] saved = (Throw (NotFound "a,b"), saved).
Proof.
  apply (unload_joins_its_names code 0 ["a"; "b"] saved); reflexivity.
Defined.

(** [toString] is a member of [Object.prototype]. *)
Lemma prototype_names_are_taken_witness :
  save code [Subject (Some "toString") (VObj [])] (initial fresh) =
    (Throw (AlreadyExists "toString"), initial fresh) ∧
  load code 1 0 [RName "toString"] (initial fresh) = (Ok VUndef, initial fresh) ∧
  unload code 0 ["toString"] (initial fresh) = (Ok VUndef, initial fresh).
Proof.
  destruct (prototype_names_are_taken code "toString" (initial fresh)
              eq_refl eq_refl) as (Hs & Hl & Hu).
  split; [|split].
  - apply (Hs [] (Subject (Some "toString") (VObj []))); reflexivity.
  - apply Hl.
  - apply Hu.
Defined.

(** A string is no hook. *)
Lemma hook_lists_only_hold_functions_witness :
  before_save (VStr "hook") (initial fresh) =
    (Throw HooksMustBeFunctions, initial fresh) ∧
  after_save (VStr "hook") (initial fresh) =
    (Throw HooksMustBeFunctions, initial fresh).
Proof.
  apply (proj2 (hook_lists_only_hold_functions code 0 fresh [])
           (VStr "hook") (initial fresh)).
  reflexivity.
Defined.

End MoreExamples.
